(** * Image reference rewriter ([scripts/update_images.py])

    The script walks a directory tree, reads every [*.html] file outside
    [node_modules] directories, substitutes the [jpg]/[png] extension of
    [<img ... src=...>] references by [webp] with one regular-expression
    substitution, and writes the file back when the text changed.

    The development has three parts: the regular-expression engine the
    script calls ([re.compile], [Pattern.sub]) restricted to the operators
    the pattern uses, the script itself over a small file-system model, and
    the properties of both. *)

From Stdlib Require Import String Ascii.
From Stdlib Require Import List NArith Bool Arith Lia.
Import ListNotations.

Set Implicit Arguments.

(** ** Text

    A Python [str] is a sequence of Unicode code points. *)

Definition char := N.
Definition str := list char.

Definition text (s : string) : str :=
  map N_of_ascii (list_ascii_of_string s).

(** The double quote, which a string literal cannot hold conveniently. *)
Definition dq : char := 34%N.

(** [html s] is [text s] with every backquote standing for a double
    quote; the sample documents below are written with it. *)
Definition html (s : string) : str :=
  map (fun ch => if N.eqb ch 96 then dq else ch) (text s).

Definition str_eqb (a b : str) : bool :=
  if list_eq_dec N.eq_dec a b then true else false.

(** ** The regular-expression engine *)

Module Sre.

(** [Py_UNICODE_ISSPACE]: the code points [\s] accepts in a [str]
    pattern. *)
Definition unicode_isspace (ch : char) : bool :=
  ((9 <=? ch) && (ch <=? 13) || (28 <=? ch) && (ch <=? 32)
   || (ch =? 0x85) || (ch =? 0xA0) || (ch =? 0x1680)
   || (0x2000 <=? ch) && (ch <=? 0x200A)
   || (ch =? 0x2028) || (ch =? 0x2029) || (ch =? 0x202F)
   || (ch =? 0x205F) || (ch =? 0x3000))%N.

(** [_sre.unicode_tolower], on the code points whose lower case is an ASCII
    letter: the Latin capitals, U+0130 (capital I with dot above) and
    U+212A (the Kelvin sign).  No other code point has an ASCII letter,
    U+0131 or U+017F as its lower case without being that code point, so
    the identity elsewhere is all that literals taken from ASCII can
    observe. *)
Definition unicode_tolower (ch : char) : char :=
  (if (65 <=? ch) && (ch <=? 90) then ch + 32
   else if ch =? 0x130 then 0x69
   else if ch =? 0x212A then 0x6B
   else ch)%N.

(** [_sre.unicode_iscased] on ASCII: the letters. *)
Definition unicode_iscased (ch : char) : bool :=
  ((65 <=? ch) && (ch <=? 90) || (97 <=? ch) && (ch <=? 122))%N.

(** [_EXTRA_CASES] of [re/_casefix.py] at the ASCII keys: lower-case code
    points with the same upper case as the key. *)
Definition extra_cases (lo : char) : list char :=
  (if lo =? 0x69 then [0x131]         (* i: dotless i *)
   else if lo =? 0x73 then [0x17F]    (* s: long s *)
   else [])%N.

(** A [LITERAL av] compiled under [IGNORECASE] in a [str] pattern: an
    uncased literal stays [LITERAL]; a cased one becomes
    [LITERAL_UNI_IGNORE lo], or [IN_UNI_IGNORE] over [lo] and its extra
    cases, both tested on the lower case of the subject character. *)
Definition literal_ignore (av ch : char) : bool :=
  if unicode_iscased av then
    let lo := unicode_tolower av in
    existsb (N.eqb (unicode_tolower ch)) (lo :: extra_cases lo)
  else (ch =? av)%N.

(** Members of a character set. *)
Inductive set_item : Type :=
  | Set_literal (av : char)
  | Category_space.

Definition set_item_ok (i : set_item) (ch : char) : bool :=
  match i with
  | Set_literal av => literal_ignore av ch
  | Category_space => unicode_isspace ch
  end.

(** The codes of width one ([_UNIT_CODES] of the compiler). *)
Inductive unit_code : Type :=
  | Literal (av : char)
  | Not_literal (av : char)
  | In (negate : bool) (items : list set_item).

Definition unit_ok (u : unit_code) (ch : char) : bool :=
  match u with
  | Literal av => literal_ignore av ch
  | Not_literal av => negb (literal_ignore av ch)
  | In negate items => xorb negate (existsb (fun i => set_item_ok i ch) items)
  end.

(** Parsed patterns.  [Max_repeat lo u] is a greedy repeat without upper
    bound of a code of width one (the compiler's [REPEAT_ONE]). *)
Inductive pattern : Type :=
  | Unit (u : unit_code)
  | Max_repeat (lo : nat) (u : unit_code)
  | Seq (p q : pattern)
  | Branch (p q : pattern)
  | Subpattern (group : nat) (p : pattern).

(** Captured groups, latest binding first. *)
Definition marks := list (nat * str).

Fixpoint lookup (g : nat) (m : marks) : option str :=
  match m with
  | [] => None
  | (g', s) :: m' => if Nat.eqb g g' then Some s else lookup g m'
  end.

(** The text consumed between the subject [s] and its suffix [s']. *)
Definition consumed (s s' : str) : str :=
  firstn (length s - length s') s.

Section Engine.

Variable A : Type.

(** [REPEAT_ONE]: take as many characters as match, then give them back one
    at a time until the rest of the pattern matches, never below [lo]. *)
Fixpoint repeat_one (u : unit_code) (lo : nat) (s : str)
    (k : str -> option A) : option A :=
  let stop := match lo with O => k s | S _ => None end in
  match s with
  | ch :: s' =>
      if unit_ok u ch then
        match repeat_one u (pred lo) s' k with
        | Some r => Some r
        | None => stop
        end
      else stop
  | [] => stop
  end.

(** The backtracking matcher, with the rest of the pattern as a
    continuation: the first alternative that lets the continuation succeed
    wins. *)
Fixpoint run (p : pattern) (s : str) (m : marks)
    (k : str -> marks -> option A) : option A :=
  match p with
  | Unit u =>
      match s with
      | ch :: s' => if unit_ok u ch then k s' m else None
      | [] => None
      end
  | Max_repeat lo u => repeat_one u lo s (fun s' => k s' m)
  | Seq p1 p2 => run p1 s m (fun s' m' => run p2 s' m' k)
  | Branch p1 p2 =>
      match run p1 s m k with
      | Some r => Some r
      | None => run p2 s m k
      end
  | Subpattern g p1 =>
      run p1 s m (fun s' m' => k s' ((g, consumed s s') :: m'))
  end.

End Engine.

(** A match object: the groups and the text after the match. *)
Record Match : Type := { groups : marks; rest : str }.

(** [Pattern.match] at the start of [s]. *)
Definition match_ (p : pattern) (s : str) : option Match :=
  run p s [] (fun s' m => Some {| groups := m; rest := s' |}).

(** [Match.group(g)]; a group that took no part reads as empty here. *)
Definition group (mo : Match) (g : nat) : str :=
  match lookup g (groups mo) with
  | Some s => s
  | None => []
  end.

(** [Pattern.sub(repl, s)] with a callable [repl]: matches are searched
    from left to right, each search starting where the previous match
    ended; the text between matches is copied.  [inside] counts the
    characters of the last match still to be passed over.  A match of the
    empty string is treated as no match: the loop's [must_advance] handling
    of such matches is not modelled. *)
Fixpoint sub_scan (p : pattern) (repl : Match -> str) (inside : nat)
    (s : str) : str :=
  match s with
  | [] => []
  | ch :: s' =>
      match inside with
      | S n => sub_scan p repl n s'
      | O =>
          match match_ p s with
          | Some mo =>
              match length s - length (rest mo) with
              | S n => repl mo ++ sub_scan p repl n s'
              | O => ch :: sub_scan p repl 0 s'
              end
          | None => ch :: sub_scan p repl 0 s'
          end
      end
  end.

Definition sub (p : pattern) (repl : Match -> str) (s : str) : str :=
  sub_scan p repl 0 s.

End Sre.

(** ** The script *)

Import Sre.

Declare Scope pattern_scope.
Delimit Scope pattern_scope with pattern.
Notation "p +++ q" := (Seq p q)
  (at level 61, right associativity) : pattern_scope.

Definition lit (a : ascii) : pattern := Unit (Literal (N_of_ascii a)).

(** The set of both quote characters. *)
Definition quotes : list set_item := [Set_literal 34%N; Set_literal 39%N].

(** The pattern of the script, compiled with [re.IGNORECASE], as the
    parser returns it.  With Q for the set of the two quote characters it
    reads [(<img\s+[^>]*src=Q)([^Q]+\.)(jpg|png)(Q[^>]*>)]; the bodies of
    its four groups come first. *)
Definition open_re : pattern :=
  (lit "<" +++ lit "i" +++ lit "m" +++ lit "g" +++
   Max_repeat 1 (In false [Category_space]) +++
   Max_repeat 0 (Not_literal 62%N) +++
   lit "s" +++ lit "r" +++ lit "c" +++ lit "=" +++
   Unit (In false quotes))%pattern.

Definition path_re : pattern :=
  (Max_repeat 1 (In true quotes) +++ lit ".")%pattern.

Definition ext_re : pattern :=
  Branch (lit "j" +++ lit "p" +++ lit "g")%pattern
         (lit "p" +++ lit "n" +++ lit "g")%pattern.

Definition close_re : pattern :=
  (Unit (In false quotes) +++ Max_repeat 0 (Not_literal 62%N) +++ lit ">")%pattern.

Definition img_tag_pattern : pattern :=
  (Subpattern 1 open_re +++ Subpattern 2 path_re +++
   Subpattern 3 ext_re +++ Subpattern 4 close_re)%pattern.

Definition new_ext : str := text "webp".

(** The callback of the substitution. *)
Definition replace_ext (mo : Match) : str :=
  let prefix := group mo 1 in
  let path := group mo 2 in
  let suffix := group mo 4 in
  prefix ++ path ++ new_ext ++ suffix.

(** [img_tag_pattern.sub(replace_ext, content)]. *)
Definition rewrite (content : str) : str :=
  sub img_tag_pattern replace_ext content.

(** *** Strings and paths *)

(** [s.startswith(prefix)]. *)
Fixpoint startswith (s prefix : str) : bool :=
  match prefix, s with
  | [], _ => true
  | a :: prefix', b :: s' => N.eqb a b && startswith s' prefix'
  | _ :: _, [] => false
  end.

(** [s.endswith(suffix)]. *)
Definition endswith (s suffix : str) : bool :=
  (length suffix <=? length s)
  && str_eqb (skipn (length s - length suffix) s) suffix.

(** [needle in s] on strings: [needle] starts at some position of [s]. *)
Fixpoint contains (needle s : str) : bool :=
  startswith s needle
  || match s with
     | [] => false
     | _ :: s' => contains needle s'
     end.

Definition sep : char := 47%N.

(** [os.path.join(a, b)] of [posixpath]. *)
Definition join (a b : str) : str :=
  if startswith b [sep] then b
  else if match a with [] => true | _ => endswith a [sep] end then a ++ b
  else a ++ sep :: b.

(** *** The file system and the effects of a run *)

(** A directory as [os.walk] sees it: its subdirectories and the names of
    its other entries, in listing order. *)
#[warnings="-register-all"]
Inductive dir : Type :=
  | Dir (subdirs : list (str * dir)) (filenames : list str).

(** [os.walk(top)], top-down: the triple of a directory comes before the
    triples of its subdirectories. *)
Fixpoint walk (top : str) (d : dir) : list (str * list str * list str) :=
  match d with
  | Dir subdirs filenames =>
      (top, map fst subdirs, filenames)
      :: flat_map (fun e => walk (join top (fst e)) (snd e)) subdirs
  end.

(** What a run does to the outside, in order. *)
Inductive event : Type :=
  | Read_file (filepath : str)                   (* [open(filepath, 'r')], [f.read()] *)
  | Print_line (line : str)                      (* [print(line)] *)
  | Write_file (filepath : str) (data : str).    (* [open(filepath, 'w')], [f.write(data)] *)

(** The contents of the files by path, as text the way [f.read()] returns
    it, and the events so far. *)
Record world : Type := { files : str -> option str; trace : list event }.

(** Computations on the world; [None] is an exception nobody catches. *)
Definition M (A : Type) : Type := world -> option A * world.

Definition ret {A} (a : A) : M A := fun w => (Some a, w).

Definition bind {A B} (c : M A) (f : A -> M B) : M B :=
  fun w =>
    match c w with
    | (Some a, w') => f a w'
    | (None, w') => (None, w')
    end.

Notation "x <- c ;; k" := (bind c (fun x => k))
  (at level 61, c at next level, right associativity).
Notation "c ;; k" := (bind c (fun _ => k))
  (at level 61, right associativity).

Definition log (e : event) (w : world) : world :=
  {| files := files w; trace := trace w ++ [e] |}.

(** Reading a whole file; a path that names no file raises. *)
Definition read (filepath : str) : M str :=
  fun w => (files w filepath, log (Read_file filepath) w).

Definition print (line : str) : M unit :=
  fun w => (Some tt, log (Print_line line) w).

(** Truncating a file and writing [data] to it. *)
Definition write (filepath data : str) : M unit :=
  fun w =>
    (Some tt,
     log (Write_file filepath data)
       {| files := fun p => if str_eqb p filepath then Some data else files w p;
          trace := trace w |}).

(** A [for] loop. *)
Fixpoint for_ {A} (xs : list A) (body : A -> M unit) : M unit :=
  match xs with
  | [] => ret tt
  | x :: xs' => body x ;; for_ xs' body
  end.

(** *** [update_html_files] *)

(** The body of the inner loop for a file that passed the suffix test. *)
Definition update_file (filepath : str) : M unit :=
  content <- read filepath ;;
  let new_content := rewrite content in
  if negb (str_eqb new_content content) then
    print (text "Updating " ++ filepath) ;;
    write filepath new_content
  else ret tt.

(** The body of the inner loop. *)
Definition visit_file (dirpath filename : str) : M unit :=
  if endswith filename (text ".html") then
    update_file (join dirpath filename)
  else ret tt.

(** The body of the outer loop. *)
Definition visit_dir (entry : str * list str * list str) : M unit :=
  let '(dirpath, _, filenames) := entry in
  if contains (text "node_modules") dirpath then ret tt
  else for_ filenames (visit_file dirpath).

Definition update_html_files (root_dir : str) (tree : dir) : M unit :=
  for_ (walk root_dir tree) visit_dir.

(** The script run as a program: [update_html_files('.')]. *)
Definition main (tree : dir) : M unit :=
  update_html_files (text ".") tree.
(** ** Specifications *)

Module Spec.

(** *** What a pattern denotes

    [den p s m s' m']: [p] can match a prefix of [s] leaving [s'], turning
    the marks [m] into [m'].  Which of the possible matches the engine
    returns is a matter of [Sre.run] alone. *)
Fixpoint den (p : pattern) (s : str) (m : marks) (s' : str) (m' : marks)
    : Prop :=
  match p with
  | Unit u => exists ch, s = ch :: s' /\ unit_ok u ch = true /\ m' = m
  | Max_repeat lo u =>
      exists w, s = w ++ s' /\ forallb (unit_ok u) w = true
                /\ lo <= length w /\ m' = m
  | Seq p1 p2 => exists s1 m1, den p1 s m s1 m1 /\ den p2 s1 m1 s' m'
  | Branch p1 p2 => den p1 s m s' m' \/ den p2 s m s' m'
  | Subpattern g p1 =>
      exists m1, den p1 s m s' m1 /\ m' = (g, consumed s s') :: m1
  end.

(** The words a pattern without groups matches. *)
Fixpoint lang (p : pattern) (w : str) : Prop :=
  match p with
  | Unit u => exists ch, w = [ch] /\ unit_ok u ch = true
  | Max_repeat lo u => forallb (unit_ok u) w = true /\ lo <= length w
  | Seq p1 p2 => exists w1 w2, w = w1 ++ w2 /\ lang p1 w1 /\ lang p2 w2
  | Branch p1 p2 => lang p1 w \/ lang p2 w
  | Subpattern _ _ => False
  end.

Fixpoint groupless (p : pattern) : bool :=
  match p with
  | Unit _ | Max_repeat _ _ => true
  | Seq p1 p2 | Branch p1 p2 => groupless p1 && groupless p2
  | Subpattern _ _ => false
  end.

(** *** An occurrence of the tag pattern, in words

    The four groups of a match, as the pattern is meant to be read. *)

(** Equality with an ASCII text up to the case of letters, as the engine
    compares literals. *)
Fixpoint caseless (lits w : str) : bool :=
  match lits, w with
  | [], [] => true
  | av :: lits', ch :: w' => literal_ignore av ch && caseless lits' w'
  | _, _ => false
  end.

Definition is_quote (ch : char) : bool := ((ch =? 34) || (ch =? 39))%N.

Definition is_gt (ch : char) : bool := (ch =? 62)%N.

Definition none (f : char -> bool) (w : str) : bool :=
  forallb (fun ch => negb (f ch)) w.

(** The characters that delimit values and tags. *)
Definition special (ch : char) : bool := is_quote ch || is_gt ch.

(** Group 1: the opening of the tag through [src=] and its quote. *)
Definition tag_open (g1 : str) : Prop :=
  exists img ws attrs src q,
    g1 = img ++ ws ++ attrs ++ src ++ [q]
    /\ caseless (text "<img") img = true
    /\ ws <> [] /\ forallb unicode_isspace ws = true
    /\ none is_gt attrs = true
    /\ caseless (text "src=") src = true
    /\ is_quote q = true.

(** Group 2: the value up to and including the dot before the extension. *)
Definition tag_path (g2 : str) : Prop :=
  exists path,
    g2 = path ++ text "." /\ path <> [] /\ none is_quote path = true.

(** Group 3: the extension. *)
Definition tag_ext (g3 : str) : Prop :=
  caseless (text "jpg") g3 = true \/ caseless (text "png") g3 = true.

(** Group 4: the closing quote through the end of the tag. *)
Definition tag_close (g4 : str) : Prop :=
  exists q more,
    g4 = q :: more ++ text ">" /\ is_quote q = true /\ none is_gt more = true.

Definition Tag (g1 g2 g3 g4 : str) : Prop :=
  tag_open g1 /\ tag_path g2 /\ tag_ext g3 /\ tag_close g4.

(** The pattern occurs at the start of [s]. *)
Definition Occurs (s : str) : Prop :=
  exists g1 g2 g3 g4 r, Tag g1 g2 g3 g4 /\ s = g1 ++ g2 ++ g3 ++ g4 ++ r.

(** *** The substitution, in words

    [Rewrites s s']: reading [s] from the left, [s'] copies every character
    at which the pattern does not occur, and where it keeps an occurrence
    it copies groups 1, 2 and 4 and writes [webp] for group 3, then goes on
    behind that occurrence. *)
Inductive Rewrites : str -> str -> Prop :=
  | Rewrites_nil : Rewrites [] []
  | Rewrites_skip (ch : char) (s s' : str) :
      ~ Occurs (ch :: s) -> Rewrites s s' ->
      Rewrites (ch :: s) (ch :: s')
  | Rewrites_tag (g1 g2 g3 g4 r r' : str) :
      Tag g1 g2 g3 g4 -> Rewrites r r' ->
      Rewrites (g1 ++ g2 ++ g3 ++ g4 ++ r) (g1 ++ g2 ++ text "webp" ++ g4 ++ r').

(** *** Tools to check a given text *)

(** The suffixes of a text, longest first. *)
Fixpoint tails (s : str) : list str :=
  s :: match s with
       | [] => []
       | _ :: s' => tails s'
       end.

(** The engine finds the pattern at the start of [s]. *)
Definition matches (s : str) : bool :=
  match match_ img_tag_pattern s with
  | Some _ => true
  | None => false
  end.

(** The engine finds the pattern at no position of [m] behind its first
    character, when [r] follows [m]. *)
Definition inner_clear (m r : str) : bool :=
  forallb (fun b => match b with
                    | [] => true
                    | _ :: _ => negb (matches (b ++ r))
                    end)
          (tl (tails m)).

(** [b] starts like an [img] tag: the tag name in any case, then white
    space. *)
Definition opens_img (b : str) : bool :=
  caseless (text "<img") (firstn 4 b)
  && match nth_error b 4 with
     | Some ch => unicode_isspace ch
     | None => false
     end.

(** An [img] tag starts somewhere in [s]. *)
Definition mentions_img (s : str) : bool := existsb opens_img (tails s).

(** *** Case of ASCII letters *)

Definition ascii_lower (ch : char) : char :=
  (if (65 <=? ch) && (ch <=? 90) then ch + 32 else ch)%N.

(** [w] reads as the lower-case ASCII text [lits] once its capital letters
    are lowered. *)
Definition ascii_caseless (lits w : str) : bool :=
  str_eqb (map ascii_lower w) lits.

(** *** Runs *)

(** The world before a run: the files, and no event yet. *)
Definition start (fs : str -> option str) : world :=
  {| files := fs; trace := [] |}.

(** The events of a run of [update_html_files]. *)
Definition run_trace (root_dir : str) (tree : dir) (fs : str -> option str)
    : list event :=
  trace (snd (update_html_files root_dir tree (start fs))).

(** The candidate files of a run, in the order of the walk: the files
    with the suffix [.html] of the directories whose path does not hold
    [node_modules]. *)
Definition candidates (root_dir : str) (tree : dir) : list str :=
  flat_map
    (fun entry : str * list str * list str =>
       let '(dirpath, _, filenames) := entry in
       if contains (text "node_modules") dirpath then []
       else map (join dirpath)
                (filter (fun f => endswith f (text ".html")) filenames))
    (walk root_dir tree).


(** The event [e] opens, announces or writes the file at [filepath]. *)
Definition concerns (e : event) (filepath : str) : Prop :=
  e = Read_file filepath
  \/ e = Print_line (text "Updating " ++ filepath)
  \/ exists data, e = Write_file filepath data.

(** The events a computation adds all satisfy [P]. *)
Definition adds (c : M unit) (P : event -> Prop) : Prop :=
  forall w, exists evs,
    trace (snd (c w)) = trace w ++ evs /\ forall e, List.In e evs -> P e.

(** The events of a directory the script does not skip concern its
    files. *)
Definition from_entry (entry : str * list str * list str) (e : event) : Prop :=
  contains (text "node_modules") (fst (fst entry)) = false
  /\ exists filename,
       List.In filename (snd entry) /\ concerns e (join (fst (fst entry)) filename).

(** What [join] puts before the name: the directory, with one separator
    at its end unless it is empty. *)
Definition dirpart (a : str) : str :=
  match a with
  | [] => []
  | _ => if endswith a [sep] then a else a ++ [sep]
  end.

(** [path.split('/')]. *)
Fixpoint split_sep (path : str) : list str :=
  match path with
  | [] => [[]]
  | ch :: path' =>
      if N.eqb ch sep then [] :: split_sep path'
      else match split_sep path' with
           | seg :: segs => (ch :: seg) :: segs
           | [] => [[ch]]
           end
  end.

(** One of the segments of [path] is [name]. *)
Definition has_segment (name path : str) : bool :=
  existsb (str_eqb name) (split_sep path).

(** A name of a directory entry holds no separator. *)
Definition slash_free (name : str) : bool :=
  none (N.eqb sep) name.

(** Every name [os.walk] reports as a file is one. *)
Definition filenames_ok (entries : list (str * list str * list str)) : bool :=
  forallb (fun e => forallb slash_free (snd e)) entries.

(** *** Texts on which one application is enough

    [Unambiguous s]: reading [s] as the substitution does, every
    occurrence of the pattern that is kept is the only way the pattern
    occurs at its start, and the pattern occurs at no other position the
    kept occurrence covers: the occurrences of the pattern that meet a
    rewritten tag are that tag alone. *)
Inductive Unambiguous : str -> Prop :=
  | Unambiguous_nil : Unambiguous []
  | Unambiguous_skip (ch : char) (s : str) :
      ~ Occurs (ch :: s) -> Unambiguous s -> Unambiguous (ch :: s)
  | Unambiguous_tag (g1 g2 g3 g4 r : str) :
      Tag g1 g2 g3 g4 ->
      (forall g1' g2' g3' g4' r',
          Tag g1' g2' g3' g4' ->
          g1 ++ g2 ++ g3 ++ g4 ++ r = g1' ++ g2' ++ g3' ++ g4' ++ r' ->
          g1' = g1 /\ g2' = g2 /\ g3' = g3 /\ g4' = g4) ->
      (forall a b,
          g1 ++ g2 ++ g3 ++ g4 = a ++ b -> a <> [] -> b <> [] ->
          ~ Occurs (b ++ r)) ->
      Unambiguous r ->
      Unambiguous (g1 ++ g2 ++ g3 ++ g4 ++ r).

(** [Sim s s']: [s'] is [s] with [webp] written for some of its
    extensions that stand before a quote. *)
Inductive Sim : str -> str -> Prop :=
  | Sim_nil : Sim [] []
  | Sim_cons (ch : char) (s s' : str) :
      Sim s s' -> Sim (ch :: s) (ch :: s')
  | Sim_site (e : str) (q : char) (s s' : str) :
      tag_ext e -> is_quote q = true -> Sim s s' ->
      Sim (e ++ q :: s) (text "webp" ++ q :: s').

(** The letters of [webp], and the characters a written [webp] and its
    quote have behind their first letter. *)
Definition webp_letter (ch : char) : bool :=
  ((ch =? 119) || (ch =? 101) || (ch =? 98) || (ch =? 112))%N.

Definition site_inner (ch : char) : bool :=
  ((ch =? 101) || (ch =? 98) || (ch =? 112))%N || is_quote ch.

(** *** Measures of a text *)

(** The ASCII letters. *)
Definition is_letter (ch : char) : bool :=
  ((65 <=? ch) && (ch <=? 90) || (97 <=? ch) && (ch <=? 122))%N.

(** What is left of a text without its ASCII letters. *)
Definition skeleton (s : str) : str :=
  filter (fun ch => negb (is_letter ch)) s.

(** The number of characters the engine reads as the letter [g]. *)
Definition count_g (s : str) : nat :=
  length (filter (literal_ignore 103%N) s).

(** The value [v] of an attribute ends with a dot and one of the two
    extensions, behind at least one character. *)
Definition rewritable_value (v : str) : bool :=
  (5 <=? length v)
  && (caseless (text ".jpg") (skipn (length v - 4) v)
      || caseless (text ".png") (skipn (length v - 4) v)).

(** *** Measures of a tree *)

(** No name of a directory of the tree holds a separator. *)
Fixpoint dirnames_ok (d : dir) : bool :=
  match d with
  | Dir subdirs _ =>
      forallb (fun e => slash_free (fst e) && dirnames_ok (snd e)) subdirs
  end.

(** The number of directories of a tree. *)
Fixpoint dir_size (d : dir) : nat :=
  match d with
  | Dir subdirs _ => S (list_sum (map (fun e => dir_size (snd e)) subdirs))
  end.

(** A name of a directory entry: not empty, and without separator. *)
Definition name_ok (name : str) : bool :=
  negb (str_eqb name []) && slash_free name.

(** The texts of a list differ from one another. *)
Fixpoint distinct (l : list str) : bool :=
  match l with
  | [] => true
  | x :: l' => negb (existsb (str_eqb x) l') && distinct l'
  end.

(** A tree as a file system holds it: in every directory the names are
    names, the files differ in name and so do the subdirectories. *)
Fixpoint tree_ok (d : dir) : bool :=
  match d with
  | Dir subdirs filenames =>
      forallb name_ok filenames && distinct filenames
      && distinct (map fst subdirs)
      && forallb (fun e => name_ok (fst e) && tree_ok (snd e)) subdirs
  end.

End Spec.

(** ** A sample site *)

Module Sample.

(** A site with a page to rewrite, a page under another casing of the
    suffix, a page without images and a package directory. *)
Definition site : dir :=
  Dir [ (text "sub", Dir [] [text "b.html"]);
        (text "node_modules",
         Dir [ (text "pkg", Dir [] [text "index.html"]) ] [text "c.html"]) ]
      [text "a.html"; text "README.HTML"].

Definition pages : list (str * str) :=
  [ (text "./a.html", html "<img src=`x.jpg`>");
    (text "./README.HTML", html "<img src=`y.png`>");
    (text "./sub/b.html", text "<p>no images</p>");
    (text "./node_modules/c.html", html "<img src=`z.jpg`>");
    (text "./node_modules/pkg/index.html", html "<img src=`w.png`>") ].

Fixpoint files_of (l : list (str * str)) (filepath : str) : option str :=
  match l with
  | [] => None
  | (p, data) :: l' => if str_eqb filepath p then Some data else files_of l' filepath
  end.


(** A site that keeps an old copy of a package directory. *)
Definition site_with_copy : dir :=
  Dir [ (text "old_node_modules_copy", Dir [] [text "x.html"]) ]
      [text "a.html"].

Definition pages_with_copy : list (str * str) :=
  [ (text "./a.html", html "<img src=`x.jpg`>");
    (text "./old_node_modules_copy/x.html", html "<img src=`y.jpg`>") ].

End Sample.

(** ** The engine against its specification *)

Module SreFacts.

Import Spec.

Lemma consumed_app (w s' : str) : consumed (w ++ s') s' = w.
Proof.
  unfold consumed. rewrite length_app.
  replace (length w + length s' - length s') with (length w) by lia.
  rewrite firstn_app, firstn_all, Nat.sub_diag. simpl. apply app_nil_r.
Qed.

Section Engine.

Variable A : Type.

Lemma repeat_one_sound (u : unit_code) (s : str) :
  forall (lo : nat) (k : str -> option A) (r : A),
    repeat_one u lo s k = Some r ->
    exists w s', s = w ++ s' /\ forallb (unit_ok u) w = true
                 /\ lo <= length w /\ k s' = Some r.
Proof.
  induction s as [|ch s IH]; intros lo k r H; simpl in H.
  - destruct lo; [|discriminate]. exists [], []. simpl. auto.
  - assert (Hstop : match lo with O => k (ch :: s) | S _ => None end = Some r ->
              exists w s', ch :: s = w ++ s' /\ forallb (unit_ok u) w = true
                 /\ lo <= length w /\ k s' = Some r).
    { destruct lo; [|discriminate]. intros Hk. exists [], (ch :: s). simpl. auto. }
    destruct (unit_ok u ch) eqn:Hch; [|auto].
    destruct (repeat_one u (pred lo) s k) eqn:Hrec; [|auto].
    injection H as ->.
    destruct (IH _ _ _ Hrec) as (w & s' & -> & Hw & Hlo & Hk).
    exists (ch :: w), s'. simpl. rewrite Hch, Hw. repeat split; auto. lia.
Qed.

Lemma repeat_one_complete (u : unit_code) (w : str) :
  forall (lo : nat) (s' : str) (k : str -> option A),
    forallb (unit_ok u) w = true -> lo <= length w -> k s' <> None ->
    repeat_one u lo (w ++ s') k <> None.
Proof.
  induction w as [|ch w IH]; intros lo s' k Hw Hlo Hk; simpl in *.
  - assert (lo = 0) as -> by lia.
    destruct s' as [|c s']; simpl; auto.
    destruct (unit_ok u c); auto.
    destruct (repeat_one u 0 s' k); auto. discriminate.
  - apply andb_prop in Hw as [Hch Hw]. rewrite Hch.
    specialize (IH (pred lo) s' k Hw ltac:(lia) Hk).
    destruct (repeat_one u (pred lo) (w ++ s') k); [discriminate|contradiction].
Qed.

Lemma run_sound (p : pattern) :
  forall (s : str) (m : marks) (k : str -> marks -> option A) (r : A),
    run p s m k = Some r ->
    exists s' m', den p s m s' m' /\ k s' m' = Some r.
Proof.
  induction p as [u|lo u|p1 IH1 p2 IH2|p1 IH1 p2 IH2|g p1 IH1];
    intros s m k r H; simpl in H.
  - destruct s as [|ch s]; [discriminate|].
    destruct (unit_ok u ch) eqn:Hch; [|discriminate].
    exists s, m. simpl. eauto.
  - apply repeat_one_sound in H as (w & s' & -> & Hw & Hlo & Hk).
    exists s', m. simpl. eauto 6.
  - apply IH1 in H as (s1 & m1 & H1 & H).
    apply IH2 in H as (s2 & m2 & H2 & H).
    exists s2, m2. simpl. eauto.
  - destruct (run p1 s m k) eqn:H1.
    + injection H as ->. apply IH1 in H1 as (s' & m' & H1 & Hk).
      exists s', m'. simpl. auto.
    + apply IH2 in H as (s' & m' & H2 & Hk).
      exists s', m'. simpl. auto.
  - apply IH1 in H as (s' & m' & H1 & Hk).
    exists s', ((g, consumed s s') :: m'). simpl. eauto.
Qed.

Lemma run_complete (p : pattern) :
  forall (s : str) (m : marks) (s' : str) (m' : marks)
         (k : str -> marks -> option A),
    den p s m s' m' -> k s' m' <> None -> run p s m k <> None.
Proof.
  induction p as [u|lo u|p1 IH1 p2 IH2|p1 IH1 p2 IH2|g p1 IH1];
    intros s m s' m' k H Hk; simpl in *.
  - destruct H as (ch & -> & Hch & ->). rewrite Hch. exact Hk.
  - destruct H as (w & -> & Hw & Hlo & ->).
    now apply repeat_one_complete.
  - destruct H as (s1 & m1 & H1 & H2).
    eapply IH1; [exact H1|]. eapply IH2; eauto.
  - destruct H as [H|H].
    + specialize (IH1 _ _ _ _ k H Hk).
      destruct (run p1 s m k); [discriminate|contradiction].
    + destruct (run p1 s m k); [discriminate|]. eapply IH2; eauto.
  - destruct H as (m1 & H1 & ->).
    eapply IH1; [exact H1|]. exact Hk.
Qed.

End Engine.

End SreFacts.

(** ** The tag pattern against its reading *)

Module PatternFacts.

Import Spec SreFacts.

Lemma den_lang (p : pattern) :
  groupless p = true ->
  forall s m s' m',
    den p s m s' m' <-> exists w, s = w ++ s' /\ lang p w /\ m' = m.
Proof.
  induction p as [u|lo u|p1 IH1 p2 IH2|p1 IH1 p2 IH2|g p1 IH1];
    simpl; intros Hg s m s' m'; try discriminate.
  - split.
    + intros (ch & -> & Hch & ->). exists [ch]. eauto.
    + intros (w & -> & (ch & -> & Hch) & ->). exists ch. auto.
  - split.
    + intros (w & -> & Hw & Hlo & ->). eauto.
    + intros (w & -> & (Hw & Hlo) & ->). exists w. auto.
  - apply andb_prop in Hg as [Hg1 Hg2]. split.
    + intros (s1 & m1 & H1 & H2).
      apply (IH1 Hg1) in H1 as (w1 & -> & H1 & ->).
      apply (IH2 Hg2) in H2 as (w2 & -> & H2 & ->).
      exists (w1 ++ w2). rewrite <- app_assoc. eauto 7.
    + intros (w & -> & (w1 & w2 & -> & H1 & H2) & ->).
      exists (w2 ++ s'), m. rewrite <- app_assoc. split.
      * apply (IH1 Hg1). eauto.
      * apply (IH2 Hg2). eauto.
  - apply andb_prop in Hg as [Hg1 Hg2].
    rewrite (IH1 Hg1), (IH2 Hg2). split.
    + intros [(w & -> & H & ->)|(w & -> & H & ->)]; eauto 6.
    + intros (w & -> & [H|H] & ->); eauto 6.
Qed.

Lemma den_subpattern (g : nat) (p : pattern) :
  groupless p = true ->
  forall s m s' m',
    den (Subpattern g p) s m s' m'
    <-> exists w, s = w ++ s' /\ lang p w /\ m' = (g, w) :: m.
Proof.
  intros Hg s m s' m'. simpl. split.
  - intros (m1 & H & ->). apply (den_lang _ Hg) in H as (w & -> & H & ->).
    rewrite consumed_app. eauto.
  - intros (w & -> & H & ->). exists m. rewrite consumed_app. split; auto.
    apply (den_lang _ Hg). eauto.
Qed.

Local Arguments literal_ignore : simpl never.
Local Arguments unicode_isspace : simpl never.
Local Arguments N_of_ascii : simpl never.
Local Arguments is_quote : simpl never.

Lemma forallb_eq (f g : char -> bool) (w : str) :
  (forall ch, f ch = g ch) -> forallb f w = forallb g w.
Proof.
  intros E. induction w as [|ch w IH]; simpl; [reflexivity|].
  now rewrite E, IH.
Qed.

Lemma literal_uncased (av ch : char) :
  unicode_iscased av = false -> literal_ignore av ch = true -> ch = av.
Proof.
  unfold literal_ignore. intros ->. apply N.eqb_eq.
Qed.

Lemma literal_refl (av : char) :
  unicode_iscased av = false -> literal_ignore av av = true.
Proof.
  unfold literal_ignore. intros ->. apply N.eqb_refl.
Qed.

Lemma unit_space ch : unit_ok (In false [Category_space]) ch = unicode_isspace ch.
Proof. simpl. apply orb_false_r. Qed.

Lemma unit_not_gt ch : unit_ok (Not_literal 62%N) ch = negb (is_gt ch).
Proof. reflexivity. Qed.

Lemma unit_quote ch : unit_ok (In false quotes) ch = is_quote ch.
Proof.
  unfold unit_ok, quotes, is_quote, set_item_ok, existsb, literal_ignore.
  simpl. now rewrite orb_false_r.
Qed.

Lemma unit_not_quote ch : unit_ok (In true quotes) ch = negb (is_quote ch).
Proof.
  change (unit_ok (In true quotes) ch) with (xorb true (unit_ok (In false quotes) ch)).
  rewrite unit_quote. now destruct (is_quote ch).
Qed.

Lemma caseless_cons_inv (av : char) (lits w : str) :
  caseless (av :: lits) w = true ->
  exists ch w', w = ch :: w' /\ literal_ignore av ch = true
                /\ caseless lits w' = true.
Proof.
  destruct w as [|ch w']; simpl; [discriminate|].
  intros H. apply andb_prop in H as [H1 H2]. eauto.
Qed.

Lemma caseless_nil_inv (w : str) : caseless [] w = true -> w = [].
Proof. destruct w; [reflexivity|discriminate]. Qed.

Ltac caseless_inv H :=
  cbn [text map list_ascii_of_string] in H;
  repeat (let ch := fresh "ch" in let E := fresh "E" in
          apply caseless_cons_inv in H as (ch & ? & -> & E & H));
  apply caseless_nil_inv in H as ->.

Lemma lang_open g1 : lang open_re g1 <-> tag_open g1.
Proof.
  unfold open_re, lit, tag_open. cbn [lang]. split.
  - intros (? & ? & -> & (c1 & -> & H1) & ? & ? & -> & (c2 & -> & H2)
            & ? & ? & -> & (c3 & -> & H3) & ? & ? & -> & (c4 & -> & H4)
            & ws & ? & -> & (Hws & Hlen) & attrs & ? & -> & (Hattrs & _)
            & ? & ? & -> & (c5 & -> & H5) & ? & ? & -> & (c6 & -> & H6)
            & ? & ? & -> & (c7 & -> & H7) & ? & ? & -> & (c8 & -> & H8)
            & q & -> & Hq).
    exists [c1; c2; c3; c4], ws, attrs, [c5; c6; c7; c8], q.
    cbn [unit_ok] in H1, H2, H3, H4, H5, H6, H7, H8.
    rewrite unit_quote in Hq.
    rewrite (forallb_eq _ _ _ unit_space) in Hws.
    rewrite (forallb_eq _ _ _ unit_not_gt) in Hattrs.
    cbn [caseless text map list_ascii_of_string app].
    rewrite H1, H2, H3, H4, H5, H6, H7, H8.
    repeat split; auto. intros ->. simpl in Hlen. lia.
  - intros (img & ws & attrs & src & q & -> & Himg & Hne & Hws & Hattrs & Hsrc & Hq).
    caseless_inv Himg. caseless_inv Hsrc.
    rename ch into c1, ch0 into c2, ch1 into c3, ch2 into c4,
           ch3 into c5, ch4 into c6, ch5 into c7, ch6 into c8.
    exists [c1], ([c2; c3; c4] ++ ws ++ attrs ++ [c5; c6; c7; c8] ++ [q]).
    split; [reflexivity|]. split; [eauto|].
    exists [c2], ([c3; c4] ++ ws ++ attrs ++ [c5; c6; c7; c8] ++ [q]).
    split; [reflexivity|]. split; [eauto|].
    exists [c3], ([c4] ++ ws ++ attrs ++ [c5; c6; c7; c8] ++ [q]).
    split; [reflexivity|]. split; [eauto|].
    exists [c4], (ws ++ attrs ++ [c5; c6; c7; c8] ++ [q]).
    split; [reflexivity|]. split; [eauto|].
    exists ws, (attrs ++ [c5; c6; c7; c8] ++ [q]).
    split; [reflexivity|]. split.
    { rewrite (forallb_eq _ _ _ unit_space). split; auto.
      destruct ws; [contradiction|simpl; lia]. }
    exists attrs, ([c5; c6; c7; c8] ++ [q]).
    split; [reflexivity|]. split.
    { rewrite (forallb_eq _ _ _ unit_not_gt). split; auto. lia. }
    exists [c5], ([c6; c7; c8] ++ [q]).
    split; [reflexivity|]. split; [eauto|].
    exists [c6], ([c7; c8] ++ [q]).
    split; [reflexivity|]. split; [eauto|].
    exists [c7], ([c8] ++ [q]).
    split; [reflexivity|]. split; [eauto|].
    exists [c8], [q].
    split; [reflexivity|]. split; [eauto|].
    exists q. rewrite unit_quote. auto.
Qed.

Lemma lang_path g2 : lang path_re g2 <-> tag_path g2.
Proof.
  unfold path_re, lit, tag_path. cbn [lang]. split.
  - intros (path & ? & -> & (Hpath & Hlen) & ch & -> & H).
    cbn [unit_ok] in H. apply literal_uncased in H as ->; [|reflexivity].
    exists path. rewrite (forallb_eq _ _ _ unit_not_quote) in Hpath.
    repeat split; auto. intros ->. simpl in Hlen. lia.
  - intros (path & -> & Hne & Hpath).
    exists path, (text "."). split; [reflexivity|]. split.
    + rewrite (forallb_eq _ _ _ unit_not_quote). split; auto.
      destruct path; [contradiction|simpl; lia].
    + eexists. split; reflexivity.
Qed.

Lemma lang_ext g3 : lang ext_re g3 <-> tag_ext g3.
Proof.
  unfold ext_re, lit, tag_ext. cbn [lang]. split.
  - intros [H|H];
      destruct H as (? & ? & -> & (c1 & -> & H1) & ? & ? & -> & (c2 & -> & H2)
                     & c3 & -> & H3);
      cbn [unit_ok] in H1, H2, H3;
      [left|right]; cbn [caseless text map list_ascii_of_string app];
      now rewrite H1, H2, H3.
  - intros [H|H]; caseless_inv H; [left|right];
      (eexists [_], [_; _]; split; [reflexivity|]; split; [eauto|];
       eexists [_], [_]; split; [reflexivity|]; split; eauto).
Qed.

Lemma lang_close g4 : lang close_re g4 <-> tag_close g4.
Proof.
  unfold close_re, lit, tag_close. cbn [lang]. split.
  - intros (? & ? & -> & (q & -> & Hq) & more & ? & -> & (Hmore & _)
            & ch & -> & H).
    cbn [unit_ok] in H. apply literal_uncased in H as ->; [|reflexivity].
    rewrite unit_quote in Hq.
    rewrite (forallb_eq _ _ _ unit_not_gt) in Hmore.
    exists q, more. auto.
  - intros (q & more & -> & Hq & Hmore).
    exists [q], (more ++ text ">"). split; [reflexivity|]. split.
    { exists q. rewrite unit_quote. auto. }
    exists more, (text ">"). split; [reflexivity|]. split.
    { rewrite (forallb_eq _ _ _ unit_not_gt). split; auto. lia. }
    eexists. split; reflexivity.
Qed.

(** The pattern denotes the occurrences of the tag, with the four groups
    bound to their texts. *)
Lemma img_den (s s' : str) (m' : marks) :
  den img_tag_pattern s [] s' m'
  <-> exists g1 g2 g3 g4,
        Tag g1 g2 g3 g4 /\ s = g1 ++ g2 ++ g3 ++ g4 ++ s'
        /\ m' = [(4, g4); (3, g3); (2, g2); (1, g1)].
Proof.
  unfold img_tag_pattern. cbn [den]. split.
  - intros (s1 & m1 & H1 & s2 & m2 & H2 & s3 & m3 & H3 & H4).
    fold (den (Subpattern 1 open_re)) in H1.
    fold (den (Subpattern 2 path_re)) in H2.
    fold (den (Subpattern 3 ext_re)) in H3.
    fold (den (Subpattern 4 close_re)) in H4.
    apply den_subpattern in H1 as (g1 & -> & L1 & ->); [|reflexivity].
    apply den_subpattern in H2 as (g2 & -> & L2 & ->); [|reflexivity].
    apply den_subpattern in H3 as (g3 & -> & L3 & ->); [|reflexivity].
    apply den_subpattern in H4 as (g4 & -> & L4 & ->); [|reflexivity].
    exists g1, g2, g3, g4. repeat split; auto.
    + now apply lang_open.
    + now apply lang_path.
    + now apply lang_ext.
    + now apply lang_close.
  - intros (g1 & g2 & g3 & g4 & (T1 & T2 & T3 & T4) & -> & ->).
    exists (g2 ++ g3 ++ g4 ++ s'), [(1, g1)]. split.
    { fold (den (Subpattern 1 open_re)). apply den_subpattern; [reflexivity|].
      exists g1. repeat split. now apply lang_open. }
    exists (g3 ++ g4 ++ s'), [(2, g2); (1, g1)]. split.
    { fold (den (Subpattern 2 path_re)). apply den_subpattern; [reflexivity|].
      exists g2. repeat split. now apply lang_path. }
    exists (g4 ++ s'), [(3, g3); (2, g2); (1, g1)]. split.
    { fold (den (Subpattern 3 ext_re)). apply den_subpattern; [reflexivity|].
      exists g3. repeat split. now apply lang_ext. }
    fold (den (Subpattern 4 close_re)). apply den_subpattern; [reflexivity|].
    exists g4. repeat split. now apply lang_close.
Qed.

(** A match is an occurrence of the tag at the start of the text. *)
Lemma match_sound (s : str) (mo : Match) :
  match_ img_tag_pattern s = Some mo ->
  exists g1 g2 g3 g4,
    Tag g1 g2 g3 g4 /\ s = g1 ++ g2 ++ g3 ++ g4 ++ rest mo
    /\ groups mo = [(4, g4); (3, g3); (2, g2); (1, g1)].
Proof.
  unfold match_. intros H.
  apply run_sound in H as (s' & m' & H & E). injection E as <-.
  apply img_den in H. exact H.
Qed.

(** Wherever the tag occurs at the start of the text, there is a match. *)
Lemma match_complete (s : str) :
  Occurs s -> match_ img_tag_pattern s <> None.
Proof.
  intros (g1 & g2 & g3 & g4 & r & T & ->). unfold match_.
  eapply run_complete.
  - apply img_den. exists g1, g2, g3, g4. eauto.
  - discriminate.
Qed.

End PatternFacts.

(** ** The substitution *)

Module SubFacts.

Import Spec SreFacts PatternFacts.

Lemma sub_scan_inside (p : pattern) (repl : Match -> str) (n : nat) :
  forall s, sub_scan p repl n s = sub_scan p repl 0 (skipn n s).
Proof.
  induction n as [|n IH]; intros s; [reflexivity|].
  destruct s as [|ch s]; [reflexivity|]. simpl. apply IH.
Qed.

Lemma tag_open_cons (g1 : str) :
  tag_open g1 -> exists ch g1', g1 = ch :: g1'.
Proof.
  intros (img & ws & attrs & src & q & -> & Himg & _).
  destruct img as [|ch img]; [discriminate|]. simpl. eauto.
Qed.

Lemma rewrite_nil : rewrite [] = [].
Proof. reflexivity. Qed.

Lemma rewrite_miss (ch : char) (s : str) :
  match_ img_tag_pattern (ch :: s) = None ->
  rewrite (ch :: s) = ch :: rewrite s.
Proof.
  unfold rewrite, sub. cbn [sub_scan]. now intros ->.
Qed.

Lemma rewrite_hit (s : str) (mo : Match) :
  match_ img_tag_pattern s = Some mo ->
  rewrite s = replace_ext mo ++ rewrite (rest mo).
Proof.
  intros H. destruct (match_sound _ H) as (g1 & g2 & g3 & g4 & T & E & _).
  destruct T as (T1 & _). apply tag_open_cons in T1 as (ch & g1' & ->).
  set (w := g1' ++ g2 ++ g3 ++ g4).
  assert (Es : s = ch :: w ++ rest mo).
  { rewrite E at 1. unfold w. simpl. now rewrite <- !app_assoc. }
  clear E. unfold rewrite, sub.
  destruct s as [|c s0]; [discriminate|]. injection Es as -> ->.
  cbn [sub_scan]. rewrite H.
  replace (length (ch :: w ++ rest mo) - length (rest mo)) with (S (length w)).
  2:{ cbn [length]. rewrite length_app. lia. }
  rewrite sub_scan_inside, skipn_app, skipn_all, Nat.sub_diag. reflexivity.
Qed.

Lemma replace_ext_groups (mo : Match) (g1 g2 g3 g4 : str) :
  groups mo = [(4, g4); (3, g3); (2, g2); (1, g1)] ->
  replace_ext mo = g1 ++ g2 ++ text "webp" ++ g4.
Proof.
  intros E. unfold replace_ext, group. rewrite E. reflexivity.
Qed.

(** The substitution on a text at whose start the pattern occurs. *)
Lemma rewrite_occurs (s : str) :
  Occurs s ->
  exists g1 g2 g3 g4 r,
    Tag g1 g2 g3 g4 /\ s = g1 ++ g2 ++ g3 ++ g4 ++ r
    /\ rewrite s = g1 ++ g2 ++ text "webp" ++ g4 ++ rewrite r.
Proof.
  intros H. apply match_complete in H.
  destruct (match_ img_tag_pattern s) as [mo|] eqn:Hm; [|contradiction].
  destruct (match_sound _ Hm) as (g1 & g2 & g3 & g4 & T & E & G).
  exists g1, g2, g3, g4, (rest mo).
  split; [exact T|]. split; [exact E|].
  rewrite (rewrite_hit _ Hm), (replace_ext_groups _ G).
  now rewrite <- !app_assoc.
Qed.

(** The substitution where the pattern does not occur at the start. *)
Lemma rewrite_no_occurrence (ch : char) (s : str) :
  ~ Occurs (ch :: s) -> rewrite (ch :: s) = ch :: rewrite s.
Proof.
  intros H. apply rewrite_miss.
  destruct (match_ img_tag_pattern (ch :: s)) as [mo|] eqn:Hm; [|reflexivity].
  exfalso. apply H.
  destruct (match_sound _ Hm) as (g1 & g2 & g3 & g4 & T & E & _).
  exists g1, g2, g3, g4, (rest mo). auto.
Qed.

Lemma occurs_dec (s : str) : Occurs s \/ ~ Occurs s.
Proof.
  destruct (match_ img_tag_pattern s) as [mo|] eqn:Hm.
  - left. destruct (match_sound _ Hm) as (g1 & g2 & g3 & g4 & T & E & _).
    exists g1, g2, g3, g4, (rest mo). auto.
  - right. intros H. now apply match_complete in H.
Qed.

Lemma rewrites_rewrite_bounded (n : nat) :
  forall s, length s <= n -> Rewrites s (rewrite s).
Proof.
  induction n as [|n IH]; intros s Hn.
  - destruct s; [constructor|simpl in Hn; lia].
  - destruct s as [|ch s]; [constructor|].
    destruct (occurs_dec (ch :: s)) as [H|H].
    + apply rewrite_occurs in H as (g1 & g2 & g3 & g4 & r & T & E & ->).
      rewrite E. constructor; [exact T|]. apply IH.
      destruct (tag_open_cons (proj1 T)) as (c & g1' & ->).
      rewrite E in Hn. simpl in Hn. rewrite !length_app in Hn. lia.
    + rewrite (rewrite_no_occurrence H). constructor; [exact H|].
      apply IH. simpl in Hn. lia.
Qed.

(** A text in which the pattern occurs nowhere is left as it is. *)
Lemma rewrite_fixed (s : str) :
  (forall a b, s = a ++ b -> ~ Occurs b) -> rewrite s = s.
Proof.
  induction s as [|ch s IH]; intros H; [reflexivity|].
  rewrite rewrite_no_occurrence.
  - f_equal. apply IH. intros a b ->. apply (H (ch :: a) b). reflexivity.
  - apply (H [] (ch :: s)). reflexivity.
Qed.

Lemma matches_occurs (s : str) : matches s = false -> ~ Occurs s.
Proof.
  unfold matches. intros H Ho. apply match_complete in Ho.
  destruct (match_ img_tag_pattern s); [discriminate|contradiction].
Qed.

Lemma tails_suffix (s a b : str) : s = a ++ b -> List.In b (tails s).
Proof.
  revert s. induction a as [|c a IH]; intros s ->.
  - destruct b; simpl; auto.
  - simpl. right. now apply IH.
Qed.

(** Checking with the engine that the pattern occurs nowhere in [s]. *)
Lemma no_occurrence_check (s : str) :
  forallb (fun b => negb (matches b)) (tails s) = true ->
  forall a b, s = a ++ b -> ~ Occurs b.
Proof.
  intros H a b E. apply matches_occurs.
  rewrite forallb_forall in H. apply negb_true_iff, H.
  now apply tails_suffix with a.
Qed.

End SubFacts.

(** ** Tags with a single pair of quotes *)

Module TagFacts.

Import Spec SreFacts PatternFacts SubFacts.

Local Arguments literal_ignore : simpl never.
Local Arguments N_of_ascii : simpl never.

Lemma none_app (P : char -> bool) (a b : str) :
  none P (a ++ b) = none P a && none P b.
Proof. apply forallb_app. Qed.

(** A text splits in one way only at the first character with [P]. *)
Lemma first_split (P : char -> bool) (a : str) :
  forall (x : char) (b a' : str) (x' : char) (b' : str),
    none P a = true -> P x = true -> none P a' = true -> P x' = true ->
    a ++ x :: b = a' ++ x' :: b' -> a = a' /\ x = x' /\ b = b'.
Proof.
  induction a as [|c a IH]; intros x b a' x' b' Ha Hx Ha' Hx' E.
  - destruct a' as [|c' a']; simpl in E.
    + injection E as -> ->. auto.
    + injection E as -> _. simpl in Ha'. rewrite Hx in Ha'. discriminate.
  - destruct a' as [|c' a']; simpl in E.
    + injection E as -> _. simpl in Ha. rewrite Hx' in Ha. discriminate.
    + injection E as -> E. simpl in Ha, Ha'.
      apply andb_prop in Ha as [_ Ha]. apply andb_prop in Ha' as [_ Ha'].
      destruct (IH _ _ _ _ _ Ha Hx Ha' Hx' E) as (-> & -> & ->). auto.
Qed.

(** A text has no character with [P], or a first one. *)
Lemma first_or_none (P : char -> bool) (w : str) :
  none P w = true
  \/ exists w0 x w1, w = w0 ++ x :: w1 /\ none P w0 = true /\ P x = true.
Proof.
  induction w as [|c w IH]; [now left|].
  destruct (P c) eqn:Hc.
  - right. exists [], c, w. auto.
  - destruct IH as [IH|(w0 & x & w1 & -> & H0 & Hx)].
    + left. simpl. now rewrite Hc.
    + right. exists (c :: w0), x, w1. simpl. rewrite Hc. auto.
Qed.

Lemma app_eq_len_r (a : str) :
  forall (b a' b' : str),
    length b = length b' -> a ++ b = a' ++ b' -> a = a' /\ b = b'.
Proof.
  induction a as [|c a IH]; intros b a' b' L E.
  - destruct a' as [|c' a']; [auto|].
    apply (f_equal (@length char)) in E. simpl in E.
    rewrite length_app in E. lia.
  - destruct a' as [|c' a'].
    + apply (f_equal (@length char)) in E. simpl in E.
      rewrite length_app in E. lia.
    + simpl in E. injection E as -> E.
      destruct (IH _ _ _ L E) as (-> & ->). auto.
Qed.

(** A text equal to letters up to case holds no character a predicate
    keeps away from those letters. *)
Lemma caseless_none (P : char -> bool) (lits : str) :
  (forall ch, P ch = true -> existsb (fun av => literal_ignore av ch) lits = false) ->
  forall w, caseless lits w = true -> none P w = true.
Proof.
  intros HP. induction lits as [|av lits IH]; intros w H.
  - apply caseless_nil_inv in H as ->. reflexivity.
  - apply caseless_cons_inv in H as (ch & w' & -> & E & H).
    simpl. rewrite IH; auto.
    + destruct (P ch) eqn:Hch; [|reflexivity].
      apply HP in Hch. simpl in Hch. rewrite E in Hch. discriminate.
    + intros c Hc. apply HP in Hc. simpl in Hc.
      now apply orb_false_elim in Hc.
Qed.

Lemma is_quote_cases (ch : char) :
  is_quote ch = true -> ch = 34%N \/ ch = 39%N.
Proof.
  unfold is_quote. intros H. apply orb_prop in H as [H|H];
    apply N.eqb_eq in H; auto.
Qed.

Lemma is_gt_eq (ch : char) : is_gt ch = true -> ch = 62%N.
Proof. apply N.eqb_eq. Qed.

Lemma special_cases (ch : char) :
  special ch = true -> ch = 34%N \/ ch = 39%N \/ ch = 62%N.
Proof.
  unfold special. intros H. apply orb_prop in H as [H|H].
  - apply is_quote_cases in H. tauto.
  - apply is_gt_eq in H. tauto.
Qed.

Lemma letters_none_special (lits w : str) :
  existsb (fun av => literal_ignore av 34%N) lits = false ->
  existsb (fun av => literal_ignore av 39%N) lits = false ->
  existsb (fun av => literal_ignore av 62%N) lits = false ->
  caseless lits w = true -> none special w = true.
Proof.
  intros H34 H39 H62. apply caseless_none.
  intros ch H. apply special_cases in H as [->| [->| ->]]; assumption.
Qed.

Lemma img_none_special (w : str) :
  caseless (text "<img") w = true -> none special w = true.
Proof. now apply letters_none_special. Qed.

Lemma src_none_special (w : str) :
  caseless (text "src=") w = true -> none special w = true.
Proof. now apply letters_none_special. Qed.

Lemma ext_none_special (w : str) : tag_ext w -> none special w = true.
Proof. intros [H|H]; revert H; now apply letters_none_special. Qed.

Lemma spaces_none_special (w : str) :
  forallb unicode_isspace w = true -> none special w = true.
Proof.
  induction w as [|ch w IH]; [reflexivity|]. simpl. intros H.
  apply andb_prop in H as [Hch H]. rewrite (IH H), andb_true_r.
  destruct (special ch) eqn:Hs; [|reflexivity].
  apply special_cases in Hs as [->| [->| ->]]; discriminate.
Qed.

Lemma none_special (w : str) :
  none special w = none is_quote w && none is_gt w.
Proof.
  induction w as [|ch w IH]; [reflexivity|].
  simpl. rewrite IH. unfold special.
  destruct (is_quote ch), (is_gt ch), (none is_quote w), (none is_gt w);
    reflexivity.
Qed.

Lemma none_special_quote (w : str) :
  none special w = true -> none is_quote w = true.
Proof. rewrite none_special. intros H. now apply andb_prop in H. Qed.

Lemma none_special_gt (w : str) :
  none special w = true -> none is_gt w = true.
Proof. rewrite none_special. intros H. now apply andb_prop in H. Qed.

Lemma none_mid (P : char -> bool) (a : str) (x : char) (b : str) :
  none P (a ++ x :: b) = true ->
  none P a = true /\ P x = false /\ none P b = true.
Proof.
  rewrite none_app. simpl. intros H.
  apply andb_prop in H as [Ha H]. apply andb_prop in H as [Hx Hb].
  apply negb_true_iff in Hx. auto.
Qed.

Lemma tag_open_shape (g1 : str) :
  tag_open g1 ->
  exists a src q,
    g1 = (a ++ src) ++ [q] /\ none is_gt (a ++ src) = true
    /\ caseless (text "src=") src = true /\ is_quote q = true.
Proof.
  intros (img & ws & attrs & src & q & -> & Himg & _ & Hws & Hattrs & Hsrc & Hq).
  exists (img ++ ws ++ attrs), src, q. repeat split; auto.
  - now rewrite <- !app_assoc.
  - rewrite !none_app, Hattrs.
    rewrite (none_special_gt _ (img_none_special _ Himg)).
    rewrite (none_special_gt _ (spaces_none_special _ Hws)).
    now rewrite (none_special_gt _ (src_none_special _ Hsrc)).
Qed.

Lemma tag_ext_length (g3 : str) : tag_ext g3 -> length g3 = 3.
Proof. intros [H|H]; caseless_inv H; reflexivity. Qed.

(** [src=] does not read as a dot and an extension. *)
Lemma src_not_ext (a src b ext : str) :
  caseless (text "src=") src = true -> tag_ext ext ->
  a ++ src <> b ++ text "." ++ ext.
Proof.
  intros Hsrc Hext E. apply tag_ext_length in Hext.
  caseless_inv Hsrc.
  apply app_eq_len_r in E as [_ E]; [|simpl; now rewrite Hext].
  injection E as -> _. vm_compute in E0. discriminate.
Qed.

(** [src=] does not read as [webp]. *)
Lemma src_not_webp (a src b : str) :
  caseless (text "src=") src = true -> a ++ src <> b ++ text "webp".
Proof.
  intros Hsrc E. caseless_inv Hsrc.
  apply app_eq_len_r in E as [_ E]; [|reflexivity].
  injection E as -> _. vm_compute in E0. discriminate.
Qed.

Section Unique.

Variables img ws pre src path ext post tail : str.
Variables q1 q2 : char.

Hypothesis Himg : caseless (text "<img") img = true.
Hypothesis Hws : forallb unicode_isspace ws = true.
Hypothesis Hpre : none special pre = true.
Hypothesis Hsrc : caseless (text "src=") src = true.
Hypothesis Hq1 : is_quote q1 = true.
Hypothesis Hpath : none is_quote path = true.
Hypothesis Hq2 : is_quote q2 = true.
Hypothesis Hpost : none special post = true.

(** Where group 1 of an occurrence can end in a text that starts like a
    tag with one pair of quotes, whatever stands for the extension [x]
    (quote-free, and such that [src=] is not how the value ends). *)
Lemma open_unique (x : str) (a' src' : str) (q1' : char) (r' : str) :
  none is_quote x = true ->
  (forall a b, a ++ src' <> b ++ text "." ++ x) ->
  none is_gt (a' ++ src') = true -> is_quote q1' = true ->
  (img ++ ws ++ pre ++ src) ++ q1 :: (path ++ text "." ++ x)
    ++ q2 :: post ++ 62%N :: tail
  = (a' ++ src') ++ q1' :: r' ->
  a' ++ src' = img ++ ws ++ pre ++ src /\ q1' = q1
  /\ r' = (path ++ text "." ++ x) ++ q2 :: post ++ 62%N :: tail.
Proof.
  intros Hx Hne Hgt Hq1' E.
  assert (HA : none is_quote (img ++ ws ++ pre ++ src) = true).
  { rewrite !none_app.
    rewrite (none_special_quote _ (img_none_special _ Himg)).
    rewrite (none_special_quote _ (spaces_none_special _ Hws)).
    rewrite (none_special_quote _ Hpre).
    now rewrite (none_special_quote _ (src_none_special _ Hsrc)). }
  assert (HB : none is_quote (path ++ text "." ++ x) = true).
  { rewrite !none_app, Hpath, Hx. reflexivity. }
  set (A := img ++ ws ++ pre ++ src) in *.
  set (B := path ++ text "." ++ x) in *.
  set (A' := a' ++ src') in *.
  destruct (first_or_none is_quote A') as [HA'|(A0 & c & A1 & EA' & HA0 & Hc)].
  { destruct (first_split is_quote _ _ _ _ _ _ HA Hq1 HA' Hq1' E) as (-> & -> & ->).
    auto. }
  exfalso. rewrite EA', <- app_assoc in E. cbn [app] in E.
  destruct (first_split is_quote _ _ _ _ _ _ HA Hq1 HA0 Hc E) as (<- & <- & E1).
  rewrite EA' in Hgt. apply none_mid in Hgt as (_ & _ & Hgt).
  destruct (first_or_none is_quote A1) as [HA1|(A2 & d & A3 & EA1 & HA2 & Hd)].
  { destruct (first_split is_quote _ _ _ _ _ _ HB Hq2 HA1 Hq1' E1) as (<- & _ & _).
    apply (Hne a' (A ++ q1 :: path)). fold A'. rewrite EA'. unfold B.
    now rewrite <- !app_assoc. }
  rewrite EA1, <- app_assoc in E1. cbn [app] in E1.
  destruct (first_split is_quote _ _ _ _ _ _ HB Hq2 HA2 Hd E1) as (_ & _ & E2).
  rewrite EA1 in Hgt. apply none_mid in Hgt as (_ & _ & Hgt).
  assert (Hs62 : special 62%N = true) by reflexivity.
  destruct (first_or_none special A3) as [HA3|(A4 & e & A5 & EA3 & HA4 & He)].
  { assert (Hsq : special q1' = true) by (unfold special; now rewrite Hq1').
    destruct (first_split special _ _ _ _ _ _ Hpost Hs62 HA3 Hsq E2) as (_ & <- & _).
    discriminate. }
  rewrite EA3, <- app_assoc in E2. cbn [app] in E2.
  destruct (first_split special _ _ _ _ _ _ Hpost Hs62 HA4 He E2) as (_ & <- & _).
  rewrite EA3 in Hgt. apply none_mid in Hgt as (_ & Hgt & _). discriminate.
Qed.

Hypothesis Hext : tag_ext ext.

(** The text of such a tag holds one occurrence of the pattern at its
    start, whatever follows the tag. *)
Lemma tag_unique (g1' g2' g3' g4' r : str) :
  Tag g1' g2' g3' g4' ->
  (img ++ ws ++ pre ++ src ++ [q1]) ++ (path ++ text ".") ++ ext
    ++ (q2 :: post ++ text ">") ++ tail
  = g1' ++ g2' ++ g3' ++ g4' ++ r ->
  g1' = img ++ ws ++ pre ++ src ++ [q1] /\ g2' = path ++ text "."
  /\ g3' = ext /\ g4' = q2 :: post ++ text ">" /\ r = tail.
Proof.
  intros (T1 & (path' & -> & _ & Hpath') & T3 & (q2' & more' & -> & Hq2' & Hmore')) E.
  apply tag_open_shape in T1 as (a' & src' & q1' & -> & Hgt & Hsrc' & Hq1').
  assert (Hx : none is_quote ext = true)
    by apply none_special_quote, ext_none_special, Hext.
  assert (Hx' : none is_quote g3' = true)
    by apply none_special_quote, ext_none_special, T3.
  assert (E' : (img ++ ws ++ pre ++ src) ++ q1 :: (path ++ text "." ++ ext)
                 ++ q2 :: post ++ 62%N :: tail
               = (a' ++ src') ++ q1' :: (path' ++ text "." ++ g3')
                 ++ q2' :: more' ++ 62%N :: r).
  { revert E. clear. cbn [text map list_ascii_of_string]. intros E.
    repeat (rewrite <- ?app_assoc in E; cbn [app] in E).
    repeat (rewrite <- ?app_assoc; cbn [app]). exact E. }
  apply open_unique in E' as (EA & -> & E'); auto.
  2:{ intros a b. now apply src_not_ext. }
  assert (HB : none is_quote (path ++ text "." ++ ext) = true).
  { rewrite !none_app, Hpath, Hx. reflexivity. }
  assert (HB' : none is_quote (path' ++ text "." ++ g3') = true).
  { rewrite !none_app, Hpath', Hx'. reflexivity. }
  destruct (first_split is_quote _ _ _ _ _ _ HB' Hq2' HB Hq2 E') as (EB & -> & E2).
  assert (Hs : is_gt 62%N = true) by reflexivity.
  destruct (first_split is_gt _ _ _ _ _ _ Hmore' Hs
              (none_special_gt _ Hpost) Hs E2) as (-> & _ & ->).
  rewrite !app_assoc in EB.
  apply app_eq_len_r in EB as [EB ->].
  2:{ now rewrite (tag_ext_length Hext), (tag_ext_length T3). }
  rewrite EA, EB. repeat split; auto. now rewrite <- !app_assoc.
Qed.

(** The substitution on a text that starts with such a tag. *)
Lemma rewrite_tag :
  ws <> [] -> path <> [] ->
  rewrite ((img ++ ws ++ pre ++ src ++ [q1]) ++ (path ++ text ".") ++ ext
             ++ (q2 :: post ++ text ">") ++ tail)
  = (img ++ ws ++ pre ++ src ++ [q1]) ++ (path ++ text ".") ++ text "webp"
      ++ (q2 :: post ++ text ">") ++ rewrite tail.
Proof.
  intros Hws0 Hpath0.
  assert (T : Tag (img ++ ws ++ pre ++ src ++ [q1]) (path ++ text ".") ext
                  (q2 :: post ++ text ">")).
  { repeat split.
    - exists img, ws, pre, src, q1. repeat split; auto.
      now apply none_special_gt.
    - exists path. auto.
    - exact Hext.
    - exists q2, post. repeat split; auto. now apply none_special_gt. }
  destruct (@rewrite_occurs ((img ++ ws ++ pre ++ src ++ [q1])
              ++ (path ++ text ".") ++ ext ++ (q2 :: post ++ text ">") ++ tail))
    as (g1' & g2' & g3' & g4' & r & T' & E & ->).
  { eexists _, _, _, _, _. split; [exact T|reflexivity]. }
  destruct (@tag_unique _ _ _ _ _ T' E) as (-> & -> & -> & -> & ->). reflexivity.
Qed.

End Unique.

(** The same, written as one text. *)
Lemma rewrite_tag_flat (img ws pre src path ext post tail : str) (q1 q2 : char) :
  caseless (text "<img") img = true ->
  ws <> [] -> forallb unicode_isspace ws = true ->
  none special pre = true ->
  caseless (text "src=") src = true ->
  is_quote q1 = true ->
  path <> [] -> none is_quote path = true ->
  tag_ext ext ->
  is_quote q2 = true ->
  none special post = true ->
  rewrite (img ++ ws ++ pre ++ src ++ q1 :: path ++ 46%N :: ext
             ++ q2 :: post ++ 62%N :: tail)
  = img ++ ws ++ pre ++ src ++ q1 :: path ++ 46%N :: text "webp"
      ++ q2 :: post ++ 62%N :: rewrite tail.
Proof.
  intros Himg Hws0 Hws Hpre Hsrc Hq1 Hpath0 Hpath Hext Hq2 Hpost.
  pose proof (@rewrite_tag img ws pre src path ext post tail q1 q2
                Himg Hws Hpre Hsrc Hq1 Hpath Hq2 Hpost Hext Hws0 Hpath0) as H.
  cbn [text map list_ascii_of_string] in H.
  repeat (rewrite <- ?app_assoc in H; cbn [app] in H).
  exact H.
Qed.

(** Lowering ASCII capitals is one of the ways the engine ignores case. *)
Lemma ascii_lower_literal (av ch : char) :
  ((av <? 65) || (90 <? av))%N = true ->
  ascii_lower ch = av -> literal_ignore av ch = true.
Proof.
  unfold ascii_lower, literal_ignore, unicode_iscased, unicode_tolower,
    extra_cases.
  intros Hav E. apply orb_prop in Hav.
  repeat match goal with
         | |- context [(?a <=? ?b)%N] => destruct (N.leb_spec a b)
         | H : context [(?a <=? ?b)%N] |- _ => destruct (N.leb_spec a b)
         | |- context [(?a =? ?b)%N] => destruct (N.eqb_spec a b)
         | H : context [(?a <? ?b)%N] |- _ => destruct (N.ltb_spec a b)
         end; cbn [andb orb existsb] in *;
    repeat match goal with
           | |- context [(?a =? ?b)%N] => destruct (N.eqb_spec a b)
           end; cbn [andb orb] in *; try reflexivity; try lia;
    destruct Hav; try discriminate; try lia.
Qed.

Lemma ascii_caseless_caseless (lits w : str) :
  forallb (fun av => (av <? 65) || (90 <? av))%N lits = true ->
  ascii_caseless lits w = true -> caseless lits w = true.
Proof.
  unfold ascii_caseless, str_eqb.
  destruct (list_eq_dec N.eq_dec (map ascii_lower w) lits) as [<-|]; [|discriminate].
  intros H _. induction w as [|ch w IH]; [reflexivity|].
  simpl in *. apply andb_prop in H as [Hch H].
  rewrite (@ascii_lower_literal _ _ Hch eq_refl). now apply IH.
Qed.

End TagFacts.

(** ** Applying the substitution twice *)

Module IdemFacts.

Import Spec SreFacts PatternFacts SubFacts TagFacts.

Local Arguments literal_ignore : simpl never.
Local Arguments N_of_ascii : simpl never.

Lemma sim_refl (s : str) : Sim s s.
Proof. induction s; constructor; auto. Qed.

Lemma sim_app (a a' b b' : str) :
  Sim a a' -> Sim b b' -> Sim (a ++ b) (a' ++ b').
Proof.
  intros Ha Hb. induction Ha as [|ch s s' _ IH|e q s s' He Hq _ IH].
  - exact Hb.
  - simpl. now constructor.
  - rewrite <- !app_assoc. cbn [app].
    change (Sim (e ++ q :: s ++ b) (text "webp" ++ q :: s' ++ b')).
    now constructor.
Qed.

Lemma tag_ext_cons (e : str) :
  tag_ext e ->
  exists e1 e2 e3, e = [e1; e2; e3] /\ webp_letter e3 = false
                   /\ e1 <> 119%N /\ is_quote e1 = false.
Proof.
  intros [H|H]; caseless_inv H; eexists _, _, _; (split; [reflexivity|]);
    repeat split;
    try (intros ->; vm_compute in E; discriminate);
    match goal with
    | |- webp_letter ?c = false =>
        destruct (webp_letter c) eqn:W; [|reflexivity];
        unfold webp_letter in W;
        repeat (apply orb_prop in W as [W|W]); apply N.eqb_eq in W; subst;
        vm_compute in E1; discriminate
    | |- is_quote ?c = false =>
        destruct (is_quote c) eqn:W; [|reflexivity];
        apply is_quote_cases in W as [->| ->]; vm_compute in E; discriminate
    end.
Qed.

(** The text of a rewritten tag keeps its likeness to the tag. *)
Lemma sim_tag (g3 g4 r r' : str) :
  tag_ext g3 -> tag_close g4 -> Sim r r' ->
  Sim (g3 ++ g4 ++ r) (text "webp" ++ g4 ++ r').
Proof.
  intros H3 (q & more & -> & Hq & _) Hr.
  cbn [app]. constructor; auto.
  apply sim_app; [apply sim_refl|exact Hr].
Qed.

Lemma rewrites_sim (s s' : str) : Rewrites s s' -> Sim s s'.
Proof.
  induction 1 as [|ch s s' _ _ IH|g1 g2 g3 g4 r r' T _ IH].
  - constructor.
  - now constructor.
  - destruct T as (_ & _ & T3 & T4).
    apply sim_app; [apply sim_refl|].
    apply sim_app; [apply sim_refl|]. now apply sim_tag.
Qed.

Lemma sim_rewrite (s : str) : Sim s (rewrite s).
Proof.
  apply rewrites_sim. apply (@rewrites_rewrite_bounded (length s) s (le_n _)).
Qed.

(** A text without quotes holds no rewritten extension. *)
Lemma sim_no_quote (x x' : str) :
  Sim x x' -> none is_quote x' = true -> x = x'.
Proof.
  induction 1 as [|ch s s' _ IH|e q s s' He Hq _ IH]; intros H.
  - reflexivity.
  - simpl in H. apply andb_prop in H as [_ H]. now rewrite IH.
  - exfalso. rewrite none_app in H. apply andb_prop in H as [_ H].
    simpl in H. rewrite Hq in H. discriminate.
Qed.

Lemma sim_none_gt (x x' : str) :
  Sim x x' -> none is_gt x' = true -> none is_gt x = true.
Proof.
  induction 1 as [|ch s s' _ IH|e q s s' He Hq _ IH]; intros H.
  - reflexivity.
  - simpl in *. apply andb_prop in H as [-> H]. now apply IH.
  - rewrite none_app in *. apply andb_prop in H as [_ H]. simpl in H.
    apply andb_prop in H as [H1 H]. rewrite (none_special_gt _ (ext_none_special He)).
    simpl. rewrite H1. now apply IH.
Qed.

(** Peeling one character that does not start a written [webp]. *)
Lemma sim_peel_char (t : str) (c : char) (y' : str) :
  Sim t (c :: y') -> c <> 119%N -> exists y, t = c :: y /\ Sim y y'.
Proof.
  intros H Hc. remember (c :: y') as t' eqn:E.
  destruct H as [|ch s s' Hs|e q s s' He Hq Hs].
  - discriminate.
  - injection E as -> ->. eauto.
  - cbn in E. injection E as E _. now destruct Hc.
Qed.

(** Cutting behind a character that is no letter of [webp]. *)
Lemma sim_split_after (t t' : str) :
  Sim t t' ->
  forall x0' c y',
    t' = x0' ++ c :: y' -> webp_letter c = false ->
    exists x y, t = x ++ y /\ Sim x (x0' ++ [c]) /\ Sim y y'.
Proof.
  induction 1 as [|ch s s' Hs IH|e q s s' He Hq Hs IH]; intros x0' c y' E Hc.
  - destruct x0'; discriminate.
  - destruct x0' as [|a x1]; cbn [app] in E; injection E as -> ->.
    + exists [c], s. repeat split; auto. apply sim_refl.
    + destruct (IH _ _ _ eq_refl Hc) as (x & y & -> & Hx & Hy).
      exists (a :: x), y. repeat split; auto. now constructor.
  - destruct x0' as [|a0 [|a1 [|a2 [|a3 [|a4 x1]]]]]; cbn in E;
      injection E as; subst; try discriminate.
    + exists (e ++ [c]), s. rewrite <- app_assoc. repeat split; auto.
      change (Sim (e ++ c :: []) (text "webp" ++ c :: [])).
      constructor; auto. constructor.
    + destruct (IH _ _ _ eq_refl Hc) as (x & y & -> & Hx & Hy).
      exists (e ++ a4 :: x), y. rewrite <- app_assoc. repeat split; auto.
      change (Sim (e ++ a4 :: x) (text "webp" ++ a4 :: (x1 ++ [c]))).
      now constructor.
Qed.

(** Cutting before a character that is not inside a written [webp] and
    its quote. *)
Lemma sim_split_before (t t' : str) :
  Sim t t' ->
  forall x' c y',
    t' = x' ++ c :: y' -> site_inner c = false ->
    exists x y, t = x ++ y /\ Sim x x' /\ Sim y (c :: y').
Proof.
  induction 1 as [|ch s s' Hs IH|e q s s' He Hq Hs IH]; intros x' c y' E Hc.
  - destruct x'; discriminate.
  - destruct x' as [|a x1]; cbn [app] in E; injection E as -> ->.
    + exists [], (c :: s). repeat split; constructor; auto.
    + destruct (IH _ _ _ eq_refl Hc) as (x & y & -> & Hx & Hy).
      exists (a :: x), y. repeat split; auto. now constructor.
  - destruct x' as [|a0 [|a1 [|a2 [|a3 [|a4 x1]]]]]; cbn in E;
      injection E as; subst; try discriminate.
    + exists [], (e ++ q :: s). repeat split; [constructor|].
      now constructor.
    + unfold site_inner in Hc. rewrite Hq, orb_true_r in Hc. discriminate.
    + destruct (IH _ _ _ eq_refl Hc) as (x & y & -> & Hx & Hy).
      exists (e ++ a4 :: x), y. rewrite <- app_assoc. repeat split; auto.
      now constructor.
Qed.

Lemma sim_peel (t x0' : str) (c : char) (y' : str) :
  Sim t (x0' ++ c :: y') -> webp_letter c = false ->
  none is_quote (x0' ++ [c]) = true ->
  exists y, t = x0' ++ c :: y /\ Sim y y'.
Proof.
  intros H Hc Hq.
  destruct (sim_split_after H _ _ _ eq_refl Hc) as (x & y & -> & Hx & Hy).
  apply sim_no_quote in Hx as ->; [|exact Hq].
  exists y. rewrite <- app_assoc. auto.
Qed.

Lemma webp_letter_cases (c : char) :
  webp_letter c = true -> c = 119%N \/ c = 101%N \/ c = 98%N \/ c = 112%N.
Proof.
  unfold webp_letter. intros H.
  repeat (apply orb_prop in H as [H|H]); apply N.eqb_eq in H; auto.
Qed.

Lemma site_inner_cases (c : char) :
  site_inner c = true ->
  c = 101%N \/ c = 98%N \/ c = 112%N \/ c = 34%N \/ c = 39%N.
Proof.
  unfold site_inner. intros H. apply orb_prop in H as [H|H].
  - repeat (apply orb_prop in H as [H|H]); apply N.eqb_eq in H; auto.
  - apply is_quote_cases in H. tauto.
Qed.

(** A character that reads as a literal the letters of [webp] do not read
    as is none of them. *)
Lemma literal_not_webp (av c : char) :
  literal_ignore av c = true ->
  forallb (fun x => negb (literal_ignore av x)) [119; 101; 98; 112]%N = true ->
  webp_letter c = false.
Proof.
  intros H Hav. destruct (webp_letter c) eqn:W; [|reflexivity].
  cbn [forallb] in Hav. repeat (apply andb_prop in Hav as [? Hav]).
  apply webp_letter_cases in W as [->|[->|[->| ->]]];
    rewrite H in *; discriminate.
Qed.

Lemma literal_not_inner (av c : char) :
  literal_ignore av c = true ->
  forallb (fun x => negb (literal_ignore av x)) [101; 98; 112; 34; 39]%N = true ->
  site_inner c = false.
Proof.
  intros H Hav. destruct (site_inner c) eqn:W; [|reflexivity].
  cbn [forallb] in Hav. repeat (apply andb_prop in Hav as [? Hav]).
  apply site_inner_cases in W as [->|[->|[->|[->| ->]]]];
    rewrite H in *; discriminate.
Qed.

Lemma space_not_webp (c : char) :
  unicode_isspace c = true -> webp_letter c = false.
Proof.
  intros H. destruct (webp_letter c) eqn:W; [|reflexivity].
  apply webp_letter_cases in W as [->|[->|[->| ->]]]; discriminate.
Qed.

Lemma quote_not_webp (c : char) :
  is_quote c = true -> webp_letter c = false /\ c <> 119%N.
Proof.
  intros H. apply is_quote_cases in H as [->| ->]; split;
    (reflexivity || discriminate).
Qed.

(** An occurrence of the pattern in a text with rewritten extensions is an
    occurrence in the text before rewriting: groups 2 and 3 are the same,
    and groups 1 and 4 are the same up to rewritten extensions. *)
Lemma occurrence_before (t t' g1' g2' g3' g4' r' : str) :
  Sim t t' -> Tag g1' g2' g3' g4' ->
  t' = g1' ++ g2' ++ g3' ++ g4' ++ r' ->
  exists g1 g4 r,
    t = g1 ++ g2' ++ g3' ++ g4 ++ r /\ Tag g1 g2' g3' g4
    /\ Sim g1 g1' /\ Sim r r'.
Proof.
  intros H (T1 & T2 & T3 & T4) ->.
  pose proof T1 as (img & ws & attrs & src & q1 & -> & Himg & Hws0 & Hws
                    & Hattrs & Hsrc & Hq1).
  pose proof T2 as (path & -> & Hpath0 & Hpath).
  pose proof T4 as (q2 & more & -> & Hq2 & Hmore).
  pose proof (none_special_quote _ (img_none_special _ Himg)) as Qimg.
  pose proof (none_special_quote _ (spaces_none_special _ Hws)) as Qws.
  pose proof (none_special_quote _ (src_none_special _ Hsrc)) as Qsrc.
  pose proof (none_special_quote _ (ext_none_special T3)) as Qext.
  (* the tag name *)
  pose proof Himg as Himg'. caseless_inv Himg'.
  rename ch into c1, ch0 into c2, ch1 into c3, ch2 into c4.
  rewrite <- !app_assoc in H.
  change ([c1; c2; c3; c4] ++ ?x) with ([c1; c2; c3] ++ c4 :: x) in H.
  apply sim_peel in H as (t1 & -> & H); [| |exact Qimg].
  2:{ apply (@literal_not_webp _ _ E2). reflexivity. }
  (* the spaces *)
  destruct (exists_last Hws0) as (ws1 & sp & ->).
  rewrite <- !app_assoc in H. cbn [app] in H.
  assert (Hsp : unicode_isspace sp = true).
  { rewrite forallb_app in Hws. apply andb_prop in Hws as [_ Hws].
    simpl in Hws. now apply andb_prop in Hws. }
  apply sim_peel in H as (t2 & -> & H);
    [|now apply space_not_webp|exact Qws].
  (* what stands before the attribute name *)
  pose proof Hsrc as Hsrc'. caseless_inv Hsrc'.
  rename ch into c5, ch0 into c6, ch1 into c7, ch2 into c8.
  cbn [app] in H.
  destruct (sim_split_before H _ _ _ eq_refl) as (a & t3 & -> & Ha & H').
  { apply (@literal_not_inner _ _ E3). reflexivity. }
  clear H. rename H' into H.
  change (c5 :: c6 :: c7 :: c8 :: ?x) with ([c5; c6; c7] ++ c8 :: x) in H.
  apply sim_peel in H as (t4 & -> & H); [| |exact Qsrc].
  2:{ apply (@literal_not_webp _ _ E6). reflexivity. }
  (* the opening quote *)
  apply sim_peel_char in H as (t5 & -> & H);
    [|now apply quote_not_webp].
  (* the value and its dot *)
  rewrite <- !app_assoc in H. cbn [text map list_ascii_of_string app] in H.
  apply sim_peel in H as (t6 & -> & H); [|reflexivity|].
  2:{ rewrite none_app, Hpath. reflexivity. }
  (* the extension *)
  destruct (tag_ext_cons T3) as (e1 & e2 & e3 & -> & He3 & _).
  change ([e1; e2; e3] ++ ?x) with ([e1; e2] ++ e3 :: x) in H.
  apply sim_peel in H as (t7 & -> & H); [|exact He3|exact Qext].
  (* the closing quote and the rest of the tag *)
  cbn [app] in H.
  apply sim_peel_char in H as (t8 & -> & H);
    [|now apply quote_not_webp].
  rewrite <- ?app_assoc in H. cbn [app] in H.
  destruct (sim_split_before H _ _ _ eq_refl) as (m & t9 & -> & Hm & H').
  { reflexivity. }
  clear H. rename H' into H.
  apply sim_peel_char in H as (r & -> & H); [|discriminate].
  exists ([c1; c2; c3; c4] ++ (ws1 ++ [sp]) ++ a ++ [c5; c6; c7; c8] ++ [q1]),
         (q2 :: m ++ text ">"), r.
  split; [|split; [|split]].
  - cbn [text map list_ascii_of_string].
    repeat (rewrite <- ?app_assoc; cbn [app]). reflexivity.
  - repeat split; auto.
    + exists [c1; c2; c3; c4], (ws1 ++ [sp]), a, [c5; c6; c7; c8], q1.
      repeat split; auto. now apply (@sim_none_gt _ _ Ha).
    + exists q2, m. repeat split; auto. now apply (@sim_none_gt _ _ Hm).
  - repeat (apply sim_app; [apply sim_refl|]).
    apply sim_app; [exact Ha|apply sim_refl].
  - exact H.
Qed.

Lemma occurs_before (t t' : str) : Sim t t' -> Occurs t' -> Occurs t.
Proof.
  intros H (g1' & g2' & g3' & g4' & r' & T & E).
  destruct (@occurrence_before _ _ _ _ _ _ _ H T E) as (g1 & g4 & r & -> & T' & _).
  exists g1, g2', g3', g4, r. auto.
Qed.

(** A text that goes on like one of its rewritings is that rewriting. *)
Lemma sim_prefix (x x' : str) :
  Sim x x' -> forall a b, x ++ a = x' ++ b -> x = x'.
Proof.
  induction 1 as [|ch s s' _ IH|e q s s' He Hq _ IH]; intros a b E.
  - reflexivity.
  - simpl in E. injection E as E. f_equal. eauto.
  - exfalso. destruct (tag_ext_cons He) as (e1 & e2 & e3 & -> & _ & He1 & _).
    cbn in E. injection E as E _. now apply He1.
Qed.

(** An occurrence starts with the opening bracket. *)
Lemma occurs_head (c : char) (x : str) : Occurs (c :: x) -> c = 60%N.
Proof.
  intros (g1 & g2 & g3 & g4 & r & ((img & ws & attrs & src & q & -> & Himg & _) & _) & E).
  caseless_inv Himg. cbn in E. injection E as -> _.
  now apply literal_uncased in E0.
Qed.

Lemma tag_close_head (g4 : str) :
  tag_close g4 -> exists q g4', g4 = q :: g4' /\ is_quote q = true.
Proof. intros (q & more & -> & Hq & _). eauto. Qed.

Section Tag.

Variables g1 g2 g3 g4 r : str.

Hypothesis T : Tag g1 g2 g3 g4.

Hypothesis only :
  forall g1' g2' g3' g4' r',
    Tag g1' g2' g3' g4' ->
    g1 ++ g2 ++ g3 ++ g4 ++ r = g1' ++ g2' ++ g3' ++ g4' ++ r' ->
    g1' = g1 /\ g2' = g2 /\ g3' = g3 /\ g4' = g4.

(** The substitution on a text that starts with a tag the pattern reads
    in one way. *)
Lemma rewrite_only :
  rewrite (g1 ++ g2 ++ g3 ++ g4 ++ r)
  = g1 ++ g2 ++ text "webp" ++ g4 ++ rewrite r.
Proof.
  destruct (@rewrite_occurs (g1 ++ g2 ++ g3 ++ g4 ++ r))
    as (g1' & g2' & g3' & g4' & r' & T' & E & ->).
  { exists g1, g2, g3, g4, r. auto. }
  destruct (@only _ _ _ _ _ T' E) as (-> & -> & -> & ->).
  repeat apply app_inv_head in E. now subst.
Qed.

(** The pattern does not occur at the start of the rewritten tag. *)
Lemma rewritten_head (R : str) :
  Sim r R -> ~ Occurs (g1 ++ g2 ++ text "webp" ++ g4 ++ R).
Proof.
  intros Hr (g1' & g2' & g3' & g4' & r' & T' & E).
  assert (H : Sim (g1 ++ g2 ++ g3 ++ g4 ++ r)
                  (g1 ++ g2 ++ text "webp" ++ g4 ++ R)).
  { destruct T as (_ & _ & T3 & T4).
    apply sim_app; [apply sim_refl|].
    apply sim_app; [apply sim_refl|]. now apply sim_tag. }
  destruct (@occurrence_before _ _ _ _ _ _ _ H T' E) as (G1 & G4 & r0 & E0 & T0 & S1 & _).
  destruct (@only _ _ _ _ _ T0 E0) as (-> & -> & -> & ->).
  rewrite (@sim_prefix _ _ S1 _ _ E) in E.
  repeat apply app_inv_head in E.
  destruct (tag_ext_cons (proj1 (proj2 (proj2 T)))) as (e1 & e2 & e3 & -> & _ & He1 & _).
  cbn in E. injection E as E _. now apply He1.
Qed.

End Tag.

(** After one application the pattern occurs nowhere in the text. *)
Lemma unambiguous_rewrite (s : str) :
  Unambiguous s -> forall a b, rewrite s = a ++ b -> ~ Occurs b.
Proof.
  induction 1 as [|ch s Hno _ IH|g1 g2 g3 g4 r T Honly Hin _ IH]; intros a b E.
  - destruct a, b; try discriminate. intros (? & ? & ? & ? & ? & T & E').
    apply proj1, tag_open_cons in T as (? & ? & ->). discriminate.
  - rewrite (@rewrite_no_occurrence _ _ Hno) in E.
    destruct a as [|c a]; simpl in E.
    + subst b. intros H. apply Hno.
      apply (@occurs_before _ (ch :: rewrite s)); [|exact H].
      constructor. apply sim_rewrite.
    + injection E as _ E. eauto.
  - rewrite (@rewrite_only _ _ _ _ _ T Honly) in E.
    pose proof (sim_rewrite r) as Hr.
    destruct T as (T1 & T2 & T3 & T4).
    destruct (tag_open_cons T1) as (c1 & g1' & Eg1).
    rewrite app_assoc in E.
    apply app_eq_app in E as (l & [[E1 E2]|[E1 E2]]).
    + (* [b] starts in groups 1 and 2 *)
      destruct l as [|c l].
      { simpl in E2. subst b. intros H. apply occurs_head in H. discriminate. }
      destruct a as [|c' a].
      { simpl in E1. subst b. rewrite <- E1, <- app_assoc.
        apply (@rewritten_head g1 g2 g3 g4 r
                 (conj T1 (conj T2 (conj T3 T4))) Honly _ Hr). }
      subst b. intros H.
      apply (Hin (c' :: a) ((c :: l) ++ g3 ++ g4)); try discriminate.
      * rewrite (app_assoc g1), E1, <- !app_assoc. reflexivity.
      * rewrite <- !app_assoc.
        apply (@occurs_before _ ((c :: l) ++ text "webp" ++ g4 ++ rewrite r));
          [|exact H].
        apply sim_app; [apply sim_refl|]. now apply sim_tag.
    + (* [b] starts behind group 2 *)
      apply app_eq_app in E2 as (k & [[E2 E3]|[E2 E3]]).
      * (* inside [webp], or at the closing quote *)
        subst b. destruct k as [|c k].
        -- simpl. destruct (tag_close_head T4) as (q & g4' & -> & Hq).
           intros H. apply occurs_head in H. subst q. discriminate.
        -- intros H. apply occurs_head in H. subst c.
           assert (Hc : List.In 60%N (text "webp")).
           { rewrite E2. apply in_or_app. right. now left. }
           repeat (destruct Hc as [Hc|Hc]; [discriminate|]). exact Hc.
      * (* behind [webp] *)
        apply app_eq_app in E3 as (j & [[E3 E4]|[E3 E4]]).
        -- destruct j as [|c j]; [simpl in E4; apply (IH [] b); auto|].
           subst b. intros H.
           apply (Hin (g1 ++ g2 ++ g3 ++ k) (c :: j)); try discriminate.
           ++ rewrite E3. now rewrite <- !app_assoc.
           ++ rewrite Eg1. discriminate.
           ++ apply (@occurs_before _ ((c :: j) ++ rewrite r)); [|exact H].
              apply sim_app; [apply sim_refl|exact Hr].
        -- eauto.
Qed.

(** *** Checking that a given text is unambiguous *)

Lemma unambiguous_skip (ch : char) (s : str) :
  matches (ch :: s) = false -> Unambiguous s -> Unambiguous (ch :: s).
Proof. intros H. constructor; auto. now apply matches_occurs. Qed.

Lemma inner_clear_spec (m r : str) :
  inner_clear m r = true ->
  forall a b, m = a ++ b -> a <> [] -> b <> [] -> ~ Occurs (b ++ r).
Proof.
  unfold inner_clear. rewrite forallb_forall. intros H a b -> Ha Hb.
  destruct a as [|c a]; [contradiction|].
  specialize (H b (tails_suffix a b eq_refl)).
  destruct b as [|d b]; [contradiction|].
  apply matches_occurs. now apply negb_true_iff.
Qed.

(** A tag with one pair of quotes, at no inner position of which the
    engine finds the pattern, can start an unambiguous text. *)
Lemma unambiguous_simple (img ws pre src path ext post r : str) (q1 q2 : char) :
  caseless (text "<img") img = true ->
  ws <> [] -> forallb unicode_isspace ws = true ->
  none special pre = true ->
  caseless (text "src=") src = true ->
  is_quote q1 = true ->
  path <> [] -> none is_quote path = true ->
  caseless (text "jpg") ext || caseless (text "png") ext = true ->
  is_quote q2 = true ->
  none special post = true ->
  inner_clear (img ++ ws ++ pre ++ src ++ q1 :: path ++ 46%N :: ext
                 ++ q2 :: post ++ [62%N]) r = true ->
  Unambiguous r ->
  Unambiguous (img ++ ws ++ pre ++ src ++ q1 :: path ++ 46%N :: ext
                 ++ q2 :: post ++ 62%N :: r).
Proof.
  intros Himg Hws0 Hws Hpre Hsrc Hq1 Hpath0 Hpath Hext Hq2 Hpost Hin Hr.
  assert (Hext' : tag_ext ext) by (apply orb_prop in Hext; exact Hext).
  assert (Em : img ++ ws ++ pre ++ src ++ q1 :: path ++ 46%N :: ext
                 ++ q2 :: post ++ [62%N]
               = (img ++ ws ++ pre ++ src ++ [q1]) ++ (path ++ text ".")
                   ++ ext ++ (q2 :: post ++ text ">")).
  { cbn [text map list_ascii_of_string].
    repeat (rewrite <- ?app_assoc; cbn [app]). reflexivity. }
  assert (Es : img ++ ws ++ pre ++ src ++ q1 :: path ++ 46%N :: ext
                 ++ q2 :: post ++ 62%N :: r
               = (img ++ ws ++ pre ++ src ++ [q1]) ++ (path ++ text ".")
                   ++ ext ++ (q2 :: post ++ text ">") ++ r).
  { cbn [text map list_ascii_of_string].
    repeat (rewrite <- ?app_assoc; cbn [app]). reflexivity. }
  rewrite Es. rewrite Em in Hin. constructor; auto.
  - repeat split.
    + exists img, ws, pre, src, q1. repeat split; auto.
      now apply none_special_gt.
    + exists path. auto.
    + exact Hext'.
    + exists q2, post. repeat split; auto. now apply none_special_gt.
  - intros g1' g2' g3' g4' r' T' E.
    destruct (@tag_unique img ws pre src path ext post r q1 q2
                Himg Hws Hpre Hsrc Hq1 Hpath Hq2 Hpost Hext'
                g1' g2' g3' g4' r' T' E) as (-> & -> & -> & -> & _).
    auto.
  - apply inner_clear_spec. rewrite <- !app_assoc in Hin |- *. exact Hin.
Qed.

End IdemFacts.

(** ** Paths *)

Module PathFacts.

Import Spec.

Lemma str_eqb_eq (a b : str) : str_eqb a b = true <-> a = b.
Proof.
  unfold str_eqb. destruct (list_eq_dec N.eq_dec a b); split;
    auto; discriminate.
Qed.

Lemma str_eqb_refl (a : str) : str_eqb a a = true.
Proof. now apply str_eqb_eq. Qed.

Lemma startswith_spec (prefix : str) :
  forall s, startswith s prefix = true <-> exists b, s = prefix ++ b.
Proof.
  induction prefix as [|a prefix IH]; intros s.
  - split; [intros _; exists s; reflexivity|intros _; destruct s; reflexivity].
  - destruct s as [|b s]; cbn [startswith].
    + split; [discriminate|]. intros (? & ?). discriminate.
    + rewrite andb_true_iff, N.eqb_eq, IH. split.
      * intros (-> & t & ->). exists t. reflexivity.
      * intros (t & E). injection E as -> ->. eauto.
Qed.

Lemma contains_spec (needle : str) :
  forall s, contains needle s = true <-> exists a b, s = a ++ needle ++ b.
Proof.
  induction s as [|c s IH]; cbn [contains];
    rewrite orb_true_iff, startswith_spec.
  - split.
    + intros [(b & ->)|]; [|discriminate]. exists [], b. reflexivity.
    + intros (a & b & E). left.
      destruct a; [|discriminate]. exists b. exact E.
  - rewrite IH. split.
    + intros [(b & ->)|(a & b & ->)].
      * exists [], b. reflexivity.
      * exists (c :: a), b. reflexivity.
    + intros ([|c' a] & b & E).
      * left. exists b. exact E.
      * right. injection E as -> ->. eauto.
Qed.

Lemma endswith_spec (s suffix : str) :
  endswith s suffix = true <-> exists stem, s = stem ++ suffix.
Proof.
  unfold endswith. rewrite andb_true_iff, Nat.leb_le, str_eqb_eq. split.
  - intros (L & E). exists (firstn (length s - length suffix) s).
    pose proof (firstn_skipn (length s - length suffix) s) as F.
    rewrite E in F. now symmetry.
  - intros (stem & ->). rewrite length_app. split; [lia|].
    replace (length stem + length suffix - length suffix) with (length stem) by lia.
    rewrite skipn_app, skipn_all, Nat.sub_diag. reflexivity.
Qed.

Lemma slash_free_startswith (b : str) :
  slash_free b = true -> startswith b [sep] = false.
Proof.
  destruct b as [|c b]; [reflexivity|]. unfold slash_free.
  cbn [none forallb startswith]. intros H. apply andb_prop in H as [H _].
  apply negb_true_iff in H. now rewrite H.
Qed.

Lemma join_dirpart (a b : str) :
  slash_free b = true -> join a b = dirpart a ++ b.
Proof.
  intros H. unfold join, dirpart. rewrite (slash_free_startswith _ H).
  destruct a as [|c a]; [reflexivity|].
  destruct (endswith (c :: a) [sep]); [reflexivity|].
  now rewrite <- app_assoc.
Qed.

Lemma dirpart_end (a : str) :
  dirpart a = [] \/ exists a', dirpart a = a' ++ [sep].
Proof.
  unfold dirpart. destruct a as [|c a]; [now left|]. right.
  destruct (endswith (c :: a) [sep]) eqn:E; [|eauto].
  now apply endswith_spec in E.
Qed.

Lemma slash_free_app (a b : str) :
  slash_free (a ++ b) = true -> slash_free a = true /\ slash_free b = true.
Proof.
  unfold slash_free, none. rewrite forallb_app. apply andb_prop.
Qed.

Lemma slash_free_last (a : str) : slash_free (a ++ [sep]) = false.
Proof.
  unfold slash_free, none. rewrite forallb_app. cbn [forallb].
  rewrite N.eqb_refl. apply andb_false_r.
Qed.

Lemma dirpart_slash_free (a l : str) :
  slash_free l = true ->
  (exists x, dirpart a = x ++ l) -> l <> [] -> False.
Proof.
  intros Hl (x & E) Hne.
  destruct (dirpart_end a) as [E0|(a' & E1)].
  - rewrite E0 in E. destruct x, l; try discriminate. now apply Hne.
  - rewrite E1 in E.
    destruct (exists_last Hne) as (l' & c & ->).
    rewrite app_assoc in E. apply app_inj_tail in E as [_ <-].
    apply slash_free_app in Hl as [_ Hl].
    change (slash_free ([] ++ [sep]) = true) in Hl.
    now rewrite slash_free_last in Hl.
Qed.

(** A joined path has one directory part and one name. *)
Lemma join_inj (a b a' b' : str) :
  slash_free b = true -> slash_free b' = true ->
  join a b = join a' b' -> dirpart a = dirpart a' /\ b = b'.
Proof.
  intros Hb Hb'. rewrite !join_dirpart by assumption. intros E.
  apply app_eq_app in E as (l & [[E1 E2]|[E1 E2]]).
  - destruct l as [|c l].
    + rewrite app_nil_r in E1. simpl in E2. auto.
    + exfalso. rewrite E2 in Hb'. apply slash_free_app in Hb' as [Hl _].
      eapply dirpart_slash_free; [exact Hl|eauto|discriminate].
  - destruct l as [|c l].
    + rewrite app_nil_r in E1. simpl in E2. auto.
    + exfalso. rewrite E2 in Hb. apply slash_free_app in Hb as [Hl _].
      eapply dirpart_slash_free; [exact Hl|eauto|discriminate].
Qed.

Lemma contains_app_l (needle a x : str) :
  contains needle a = true -> contains needle (a ++ x) = true.
Proof.
  rewrite !contains_spec. intros (u & v & ->). exists u, (v ++ x).
  now rewrite <- !app_assoc.
Qed.

Lemma last_or_nil (v : str) : v = [] \/ exists v' d, v = v' ++ [d].
Proof.
  induction v as [|d v _] using rev_ind; [now left|right; eauto].
Qed.

Lemma contains_snoc (needle a : str) (c : char) :
  needle <> [] -> ~ List.In c needle ->
  contains needle (a ++ [c]) = true -> contains needle a = true.
Proof.
  intros Hne Hc. rewrite !contains_spec. intros (u & v & E).
  destruct (last_or_nil v) as [->|(v' & d & ->)].
  2:{ rewrite !app_assoc in E. apply app_inj_tail in E as [E _].
      exists u, v'. now rewrite E, <- !app_assoc. }
  exfalso. rewrite app_nil_r in E.
  destruct (exists_last Hne) as (n' & d & ->).
  rewrite app_assoc in E. apply app_inj_tail in E as [_ <-].
  apply Hc, in_or_app. right. now left.
Qed.

(** The directory part of a path holds a name without separator where the
    path holds it. *)
Lemma contains_dirpart (needle a : str) :
  needle <> [] -> ~ List.In sep needle ->
  contains needle (dirpart a) = contains needle a.
Proof.
  intros Hne Hsep. unfold dirpart. destruct a as [|c a]; [reflexivity|].
  destruct (endswith (c :: a) [sep]); [reflexivity|].
  destruct (contains needle (c :: a)) eqn:E.
  - now apply contains_app_l.
  - destruct (contains needle ((c :: a) ++ [sep])) eqn:E'; [|reflexivity].
    apply contains_snoc in E'; auto. congruence.
Qed.

(** The first segment of a path starts it, and the others are parts of
    it. *)
Lemma split_sep_parts (path : str) :
  match split_sep path with
  | [] => False
  | seg :: segs =>
      (exists b, path = seg ++ b)
      /\ forall name, List.In name segs -> exists a b, path = a ++ name ++ b
  end.
Proof.
  induction path as [|c path IH]; cbn [split_sep].
  - split; [exists []; reflexivity|intros ? []].
  - destruct (split_sep path) as [|seg segs]; [contradiction|].
    destruct IH as ((b & E) & IH).
    destruct (N.eqb c sep).
    + split; [exists (c :: path); reflexivity|].
      intros name [<-|H].
      * exists [c], b. now rewrite E.
      * destruct (IH _ H) as (a & b' & ->). exists (c :: a), b'. reflexivity.
    + split; [exists b; now rewrite E|].
      intros name H. destruct (IH _ H) as (a & b' & ->).
      exists (c :: a), b'. reflexivity.
Qed.

Lemma has_segment_contains (name path : str) :
  has_segment name path = true -> contains name path = true.
Proof.
  unfold has_segment. rewrite existsb_exists. intros (seg & Hin & E).
  apply str_eqb_eq in E as <-. apply contains_spec.
  pose proof (split_sep_parts path) as H.
  destruct (split_sep path) as [|seg segs]; [contradiction|].
  destruct H as ((b & E) & H). destruct Hin as [<-|Hin].
  - exists [], b. exact E.
  - now apply H.
Qed.

End PathFacts.

(** ** Runs *)

Module RunFacts.

Import Spec PathFacts.

Lemma concerns_inj (e : event) (p p' : str) :
  concerns e p -> concerns e p' -> p = p'.
Proof.
  intros [->|[->|(d & ->)]] [E|[E|(d' & E)]]; try discriminate.
  - now injection E.
  - now injection E.
  - now injection E.
Qed.

Lemma adds_ret (P : event -> Prop) : adds (ret tt) P.
Proof. intros w. exists []. simpl. rewrite app_nil_r. split; [auto|intros ? []]. Qed.

Lemma adds_weaken (c : M unit) (P Q : event -> Prop) :
  (forall e, P e -> Q e) -> adds c P -> adds c Q.
Proof.
  intros HPQ H w. destruct (H w) as (evs & E & Hevs).
  exists evs. split; auto.
Qed.

Lemma adds_seq (c k : M unit) (P : event -> Prop) :
  adds c P -> adds k P -> adds (c ;; k) P.
Proof.
  intros Hc Hk w. unfold bind. destruct (Hc w) as (evs & E & Hevs).
  destruct (c w) as [[[]|] w1]; simpl in *.
  - destruct (Hk w1) as (evs' & E' & Hevs').
    exists (evs ++ evs'). rewrite E', E, app_assoc. split; [reflexivity|].
    intros e H. apply in_app_or in H as [H|H]; auto.
  - eauto.
Qed.

Lemma adds_for (A : Type) (xs : list A) (body : A -> M unit)
    (P : A -> event -> Prop) :
  (forall x, List.In x xs -> adds (body x) (P x)) ->
  adds (for_ xs body) (fun e => exists x, List.In x xs /\ P x e).
Proof.
  induction xs as [|x xs IH]; intros H; cbn [for_].
  - apply adds_weaken with (P := fun _ => False); [intros ? []|].
    intros w. exists []. simpl. rewrite app_nil_r. split; [auto|intros ? []].
  - apply adds_seq.
    + eapply adds_weaken; [|apply (H x); now left].
      intros e He. exists x. split; [now left|exact He].
    + eapply adds_weaken; [|apply IH; intros y Hy; apply H; now right].
      intros e (y & Hy & He). exists y. split; [now right|exact He].
Qed.

Lemma adds_update_file (filepath : str) :
  adds (update_file filepath) (fun e => concerns e filepath).
Proof.
  intros w. unfold update_file, bind, read.
  destruct (files w filepath) as [content|].
  - destruct (negb (str_eqb (rewrite content) content)).
    + exists [Read_file filepath; Print_line (text "Updating " ++ filepath);
              Write_file filepath (rewrite content)].
      split.
      * cbn [print write log trace snd]. now rewrite <- !app_assoc.
      * intros e [<-|[<-|[<-|[]]]]; unfold concerns; eauto.
    + exists [Read_file filepath]. split; [reflexivity|].
      intros e [<-|[]]. now left.
  - exists [Read_file filepath]. split; [reflexivity|].
    intros e [<-|[]]. now left.
Qed.

Lemma adds_visit_file (dirpath filename : str) :
  adds (visit_file dirpath filename)
       (fun e => concerns e (join dirpath filename)).
Proof.
  unfold visit_file. destruct (endswith filename (text ".html")).
  - apply adds_update_file.
  - eapply adds_weaken; [|apply adds_ret with (P := fun _ => False)].
    intros ? [].
Qed.

Lemma adds_visit_dir (entry : str * list str * list str) :
  adds (visit_dir entry) (from_entry entry).
Proof.
  destruct entry as [[dirpath dirnames] filenames]. unfold visit_dir, from_entry.
  cbn [fst snd]. destruct (contains (text "node_modules") dirpath) eqn:E.
  - eapply adds_weaken; [|apply adds_ret with (P := fun _ => False)].
    intros ? [].
  - eapply adds_weaken; [|apply adds_for; intros f _; apply adds_visit_file].
    cbn beta. intros e (f & Hf & He). eauto.
Qed.

Lemma run_trace_from (root_dir : str) (tree : dir) (fs : str -> option str)
    (e : event) :
  List.In e (run_trace root_dir tree fs) ->
  exists entry, List.In entry (walk root_dir tree) /\ from_entry entry e.
Proof.
  unfold run_trace, update_html_files. intros H.
  destruct (@adds_for _ (walk root_dir tree) visit_dir from_entry
              (fun x _ => adds_visit_dir x) (start fs)) as (evs & E & Hevs).
  rewrite E in H. simpl in H. auto.
Qed.

(** *** The run as a pass over the candidate files *)







End RunFacts.

(** ** More on the substitution *)

Module MoreFacts.

Import Spec SreFacts PatternFacts SubFacts TagFacts IdemFacts.

Local Arguments literal_ignore : simpl never.
Local Arguments N_of_ascii : simpl never.

Lemma matches_iff (s : str) : matches s = true <-> Occurs s.
Proof.
  split.
  - unfold matches. destruct (match_ img_tag_pattern s) as [mo|] eqn:E;
      [|discriminate]. intros _.
    destruct (match_sound _ E) as (g1 & g2 & g3 & g4 & T & Es & _).
    exists g1, g2, g3, g4, (rest mo). auto.
  - intros H. destruct (matches s) eqn:E; [reflexivity|].
    now apply matches_occurs in E.
Qed.

(** The shortest tag: the name, one white space, [src=], a quote, one
    character and the dot, the extension, a quote and the bracket. *)
Lemma tag_length (g1 g2 g3 g4 : str) :
  Tag g1 g2 g3 g4 -> 17 <= length (g1 ++ g2 ++ g3 ++ g4).
Proof.
  intros ((img & ws & attrs & src & q & -> & Himg & Hws0 & _ & _ & Hsrc & _)
          & (path & -> & Hpath0 & _) & T3 & (q2 & more & -> & _)).
  apply tag_ext_length in T3.
  caseless_inv Himg. caseless_inv Hsrc.
  destruct ws; [contradiction|]. destruct path; [contradiction|].
  repeat first [rewrite length_app
               | progress cbn [length app text map list_ascii_of_string]].
  lia.
Qed.

Lemma rewrites_length (s s' : str) : Rewrites s s' -> length s <= length s'.
Proof.
  induction 1 as [|ch s s' _ _ IH|g1 g2 g3 g4 r r' T _ IH]; simpl; try lia.
  destruct T as (_ & _ & T3 & _). apply tag_ext_length in T3.
  repeat first [rewrite length_app
               | progress cbn [length app text map list_ascii_of_string]].
  lia.
Qed.

(** A rewriting is longer than the text, or it is the text and the
    pattern occurs nowhere in it. *)
Lemma rewrites_cases (s s' : str) :
  Rewrites s s' ->
  length s < length s'
  \/ (s' = s /\ forall a b, s = a ++ b -> ~ Occurs b).
Proof.
  induction 1 as [|ch s s' Hno H IH|g1 g2 g3 g4 r r' T H IH].
  - right. split; [reflexivity|]. intros a b E Ho.
    destruct a, b; try discriminate.
    destruct Ho as (? & ? & ? & ? & ? & T & E').
    apply proj1, tag_open_cons in T as (? & ? & ->). discriminate.
  - destruct IH as [IH|[-> IH]].
    + left. simpl. lia.
    + right. split; [reflexivity|]. intros [|c a] b E.
      * simpl in E. now subst b.
      * injection E as _ E. eauto.
  - left. apply rewrites_length in H.
    destruct T as (_ & _ & T3 & _). apply tag_ext_length in T3.
    repeat first [rewrite length_app
               | progress cbn [length app text map list_ascii_of_string]].
    lia.
Qed.

Lemma rewrite_rewrites (s : str) : Rewrites s (rewrite s).
Proof. apply (@rewrites_rewrite_bounded (length s) s (le_n _)). Qed.

(** A letter other than i, k and s is read in its two cases only. *)
Lemma literal_letter (av c : char) :
  ((97 <=? av) && (av <=? 122) && negb (av =? 105) && negb (av =? 107)
   && negb (av =? 115))%N = true ->
  literal_ignore av c = true -> c = av \/ (c + 32)%N = av.
Proof.
  unfold literal_ignore, unicode_iscased, unicode_tolower, extra_cases.
  intros Hav.
  repeat (apply andb_prop in Hav as [Hav ?]).
  repeat match goal with
         | H : negb _ = true |- _ => apply negb_true_iff in H
         | H : (_ <=? _)%N = true |- _ => apply N.leb_le in H
         | H : (_ =? _)%N = false |- _ => apply N.eqb_neq in H
         end.
  repeat match goal with
         | |- context [(?a <=? ?b)%N] => destruct (N.leb_spec a b)
         | |- context [(?a =? ?b)%N] => destruct (N.eqb_spec a b)
         end; cbn [andb orb existsb]; intros E; try discriminate;
    repeat match goal with
           | H : context [(?a =? ?b)%N] |- _ => destruct (N.eqb_spec a b)
           end; cbn [andb orb] in *; try discriminate; try lia;
    try congruence.
Qed.

Lemma tag_ext_chars (e : str) :
  tag_ext e -> forallb is_letter e = true /\ count_g e = 1.
Proof.
  intros [H|H]; caseless_inv H;
    apply literal_letter in E as [->| <-%N.add_sub_eq_r];
    apply literal_letter in E0 as [->| <-%N.add_sub_eq_r];
    apply literal_letter in E1 as [->| <-%N.add_sub_eq_r];
    split; reflexivity.
Qed.

Lemma skeleton_app (a b : str) : skeleton (a ++ b) = skeleton a ++ skeleton b.
Proof. apply filter_app. Qed.

Lemma skeleton_letters (w : str) : forallb is_letter w = true -> skeleton w = [].
Proof.
  induction w as [|c w IH]; [reflexivity|]. simpl. intros H.
  apply andb_prop in H as [-> H]. simpl. now apply IH.
Qed.

Lemma sim_skeleton (s s' : str) : Sim s s' -> skeleton s' = skeleton s.
Proof.
  induction 1 as [|ch s s' _ IH|e q s s' He Hq _ IH].
  - reflexivity.
  - unfold skeleton in *. simpl. now rewrite IH.
  - rewrite !skeleton_app.
    rewrite (skeleton_letters e) by apply (tag_ext_chars He).
    rewrite (skeleton_letters (text "webp")) by reflexivity.
    unfold skeleton in *. simpl. now rewrite IH.
Qed.

Lemma count_g_app (a b : str) : count_g (a ++ b) = count_g a + count_g b.
Proof. unfold count_g. now rewrite filter_app, length_app. Qed.

(** Writing [webp] for an extension takes one [g] away and adds one
    character. *)
Lemma sim_balance (s s' : str) :
  Sim s s' -> count_g s' + length s' = count_g s + length s.
Proof.
  induction 1 as [|ch s s' _ IH|e q s s' He Hq _ IH].
  - reflexivity.
  - change (ch :: s') with ([ch] ++ s'). change (ch :: s) with ([ch] ++ s).
    rewrite !count_g_app, !length_app. lia.
  - change (q :: s') with ([q] ++ s'). change (q :: s) with ([q] ++ s).
    rewrite !count_g_app, !length_app.
    rewrite (proj2 (tag_ext_chars He)), (tag_ext_length He).
    change (count_g (text "webp")) with 0.
    change (length (text "webp")) with 4. lia.
Qed.

Lemma rewrite_changed_length (s : str) :
  rewrite s <> s -> length s < length (rewrite s).
Proof.
  intros H. destruct (rewrites_cases (rewrite_rewrites s)) as [L|[E _]];
    [exact L|contradiction].
Qed.

Lemma iter_fixed (n : nat) (s : str) :
  rewrite s = s -> Nat.iter n rewrite s = s.
Proof. intros E. induction n as [|n IH]; simpl; congruence. Qed.

Lemma iter_shift (n : nat) (s : str) :
  Nat.iter n rewrite (rewrite s) = rewrite (Nat.iter n rewrite s).
Proof. induction n as [|n IH]; simpl; congruence. Qed.

Lemma iter_reaches_fixed (n : nat) :
  forall s, count_g s <= n ->
            rewrite (Nat.iter n rewrite s) = Nat.iter n rewrite s.
Proof.
  induction n as [|n IH]; intros s Hn.
  - simpl. destruct (list_eq_dec N.eq_dec (rewrite s) s) as [E|E]; [exact E|].
    apply rewrite_changed_length in E.
    pose proof (sim_balance (sim_rewrite s)). lia.
  - destruct (list_eq_dec N.eq_dec (rewrite s) s) as [E|E].
    + rewrite (iter_fixed _ E). exact E.
    + change (rewrite (rewrite (Nat.iter n rewrite s))
              = rewrite (Nat.iter n rewrite s)).
      rewrite <- (iter_shift n s). apply IH.
      apply rewrite_changed_length in E.
      pose proof (sim_balance (sim_rewrite s)). lia.
Qed.

(** *** Values the pattern does not take *)

Lemma rewritable_value_tag (path g3 : str) :
  path <> [] -> tag_ext g3 ->
  rewritable_value (path ++ text "." ++ g3) = true.
Proof.
  intros Hpath Hext. unfold rewritable_value.
  pose proof (tag_ext_length Hext) as L.
  rewrite !length_app. change (length (text ".")) with 1. rewrite L.
  replace (length path + (1 + 3) - 4) with (length path) by lia.
  rewrite skipn_app, skipn_all, Nat.sub_diag. cbn [app skipn].
  destruct path as [|c path]; [contradiction|]. cbn [length].
  apply andb_true_intro. split; [apply Nat.leb_le; lia|].
  destruct Hext as [H|H]; cbn [text map list_ascii_of_string caseless app] in *;
    rewrite H; [reflexivity|apply orb_true_r].
Qed.

(** An occurrence holds two quotes around a value the pattern takes. *)
Lemma occurs_quotes (b : str) :
  Occurs b ->
  exists X q1 B q2 M,
    b = X ++ q1 :: B ++ q2 :: M /\ is_quote q1 = true /\ is_quote q2 = true
    /\ none is_quote B = true /\ rewritable_value B = true.
Proof.
  intros (g1 & g2 & g3 & g4 & r
          & ((img & ws & attrs & src & q & -> & _ & _ & _ & _ & _ & Hq)
             & (path & -> & Hpath0 & Hpath) & T3
             & (q2 & more & -> & Hq2 & _)) & ->).
  exists (img ++ ws ++ attrs ++ src), q, (path ++ text "." ++ g3), q2,
         (more ++ text ">" ++ r).
  repeat split; auto.
  - repeat (rewrite <- ?app_assoc; cbn [app]). reflexivity.
  - rewrite !none_app, Hpath.
    now rewrite (none_special_quote _ (ext_none_special T3)).
  - now apply rewritable_value_tag.
Qed.

(** Behind its only quote a text has no room for a second one. *)
Lemma one_quote_room (v : str) (q : char) (Y : str) (q1 : char) (B : str)
    (q2 : char) (M : str) :
  none is_quote v = true -> is_quote q = true ->
  is_quote q1 = true -> B <> [] ->
  Y ++ q1 :: B ++ q2 :: M = v ++ q :: [62%N] -> False.
Proof.
  intros Hv Hq Hq1 HB0 E. symmetry in E.
  destruct (first_or_none is_quote Y) as [H0|(Y0 & c & Y1 & EY & HY0 & Hc)].
  - destruct (first_split is_quote _ _ _ _ _ _ Hv Hq H0 Hq1 E) as (_ & _ & E').
    destruct B as [|c B]; [contradiction|]. injection E' as _ E'.
    destruct B; discriminate.
  - rewrite EY, <- app_assoc in E. cbn [app] in E.
    destruct (first_split is_quote _ _ _ _ _ _ Hv Hq HY0 Hc E) as (_ & _ & E').
    destruct Y1 as [|d Y1]; cbn [app] in E'.
    + injection E' as E1 _. subst q1. discriminate.
    + injection E' as _ E'. destruct Y1; discriminate.
Qed.

Lemma rewritable_nonempty (B : str) : rewritable_value B = true -> B <> [].
Proof. intros H ->. discriminate. Qed.

(** Behind its only quote a text has no room for an occurrence. *)
Lemma one_quote_no_occurrence (v : str) (q : char) (Y b : str) :
  none is_quote v = true -> is_quote q = true ->
  Y ++ b = v ++ q :: [62%N] -> ~ Occurs b.
Proof.
  intros Hv Hq E Ho.
  destruct (occurs_quotes Ho) as (X & q1 & B & q2 & M & -> & Hq1 & Hq2 & HB & HR).
  rewrite app_assoc in E.
  apply (@one_quote_room v q (Y ++ X) q1 B q2 M); auto.
  now apply rewritable_nonempty.
Qed.

(** A tag whose value the pattern does not take holds no occurrence. *)
Lemma plain_tag_no_occurrence (v : str) (q1 q2 : char) (a b : str) :
  is_quote q1 = true -> is_quote q2 = true ->
  none is_quote v = true -> rewritable_value v = false ->
  text "<img src=" ++ q1 :: v ++ q2 :: text ">" = a ++ b -> ~ Occurs b.
Proof.
  intros Hq1 Hq2 Hv Hr E Ho.
  assert (HL : none is_quote (text "<img src=") = true) by reflexivity.
  apply app_eq_app in E as (l & [[E1 E2]|[E1 E2]]).
  - (* [b] starts in the opening of the tag *)
    destruct a as [|c0 a].
    + simpl in E1. subst l b.
      destruct (occurs_quotes Ho) as (X & q1' & B & q2' & M & E & Hq1' & Hq2' & HB & HR).
      destruct (first_or_none is_quote X) as [H0|(X0 & c & X1 & EX & HX0 & Hc)].
      * destruct (first_split is_quote _ _ _ _ _ _ HL Hq1 H0 Hq1' E) as (_ & _ & E').
        destruct (first_split is_quote _ _ _ _ _ _ Hv Hq2 HB Hq2' E') as (-> & _ & _).
        congruence.
      * rewrite EX, <- app_assoc in E. cbn [app] in E.
        destruct (first_split is_quote _ _ _ _ _ _ HL Hq1 HX0 Hc E) as (_ & _ & E').
        symmetry in E'.
        apply (@one_quote_room v q2 X1 q1' B q2' M); auto.
        now apply rewritable_nonempty.
    + subst b. destruct l as [|c l].
      * apply occurs_head in Ho. subst q1. discriminate.
      * apply occurs_head in Ho. subst c.
        injection E1 as _ E1.
        assert (Hin : List.In 60%N (text "img src=")).
        { change (text "img src=") with (tl (text "<img src=")).
          cbn [text map list_ascii_of_string tl] in *. rewrite E1.
          apply in_or_app. right. now left. }
        repeat (destruct Hin as [Hin|Hin]; [discriminate|]). exact Hin.
  - (* [b] starts at the opening quote or behind it *)
    destruct l as [|c l].
    + simpl in E2. subst b. apply occurs_head in Ho. subst q1. discriminate.
    + injection E2 as _ E2. symmetry in E2.
      now apply (@one_quote_no_occurrence v q2 l b).
Qed.

End MoreFacts.

(** ** More on runs *)

Module RunMore.

Import Spec PathFacts RunFacts SubFacts IdemFacts.

Lemma in_candidates (root_dir : str) (tree : dir) (p : str) :
  List.In p (candidates root_dir tree) <->
  exists dirpath dirnames filenames filename,
    List.In (dirpath, dirnames, filenames) (walk root_dir tree)
    /\ contains (text "node_modules") dirpath = false
    /\ List.In filename filenames
    /\ endswith filename (text ".html") = true
    /\ p = join dirpath filename.
Proof.
  unfold candidates. rewrite in_flat_map. split.
  - intros ([[d dn] fs] & He & Hp).
    destruct (contains (text "node_modules") d) eqn:E; [destruct Hp|].
    apply in_map_iff in Hp as (f & <- & Hf). apply filter_In in Hf as [Hf Hs].
    exists d, dn, fs, f. auto.
  - intros (d & dn & fs & f & He & Hd & Hf & Hs & ->).
    exists (d, dn, fs). split; [exact He|]. rewrite Hd.
    apply in_map. apply filter_In. auto.
Qed.

Lemma dirpart_app (a x : str) : exists z, dirpart (a ++ x) = a ++ z.
Proof.
  unfold dirpart. destruct (a ++ x) as [|c l] eqn:E.
  - apply app_eq_nil in E as [-> _]. exists []. reflexivity.
  - rewrite <- E. destruct (endswith (a ++ x) [sep]).
    + exists x. reflexivity.
    + exists (x ++ [sep]). now rewrite app_assoc.
Qed.

Lemma dir_size_in (e : str * dir) (subdirs : list (str * dir)) :
  List.In e subdirs ->
  dir_size (snd e) <= list_sum (map (fun e => dir_size (snd e)) subdirs).
Proof.
  induction subdirs as [|x l IH]; [intros []|intros [<-|H]]; simpl.
  - lia.
  - specialize (IH H). lia.
Qed.

(** Every directory of the walk lies below the top. *)
Lemma walk_dirpart (n : nat) :
  forall (d : dir) (top : str),
    dir_size d <= n -> dirnames_ok d = true ->
    forall entry, List.In entry (walk top d) ->
                  exists y, dirpart (fst (fst entry)) = dirpart top ++ y.
Proof.
  induction n as [|n IH]; intros [subdirs filenames] top Hn Hok entry He.
  - simpl in Hn. lia.
  - cbn [walk] in He. destruct He as [<-|He].
    + exists []. cbn [fst]. now rewrite app_nil_r.
    + apply in_flat_map in He as (e & Hin & He).
      cbn [dirnames_ok] in Hok. rewrite forallb_forall in Hok.
      specialize (Hok e Hin). apply andb_prop in Hok as [Hname Hsub].
      cbn [dir_size] in Hn. pose proof (dir_size_in e subdirs Hin) as Hs.
      destruct (IH (snd e) (join top (fst e)) ltac:(lia) Hsub entry He) as (y & E).
      rewrite E, (@join_dirpart top _ Hname).
      destruct (dirpart_app (dirpart top) (fst e)) as (z & ->).
      exists (z ++ y). now rewrite app_assoc.
Qed.

Lemma walk_contains (d : dir) (top needle : str) :
  needle <> [] -> ~ List.In sep needle ->
  dirnames_ok d = true -> contains needle top = true ->
  forall entry, List.In entry (walk top d) ->
                contains needle (fst (fst entry)) = true.
Proof.
  intros Hne Hsep Hok Htop entry He.
  destruct (@walk_dirpart (dir_size d) d top (le_n _) Hok entry He) as (y & E).
  rewrite <- (contains_dirpart _ Hne Hsep), E.
  apply contains_app_l. now rewrite (contains_dirpart _ Hne Hsep).
Qed.

Lemma for_idle (A : Type) (xs : list A) (body : A -> M unit) (w : world) :
  (forall x, List.In x xs -> forall w', body x w' = (Some tt, w')) ->
  for_ xs body w = (Some tt, w).
Proof.
  induction xs as [|x xs IH]; intros H; [reflexivity|].
  cbn [for_]. unfold bind. rewrite (H x (or_introl eq_refl)).
  apply IH. intros y Hy. apply H. now right.
Qed.


Lemma concerns_read (p : str) : concerns (Read_file p) p.
Proof. now left. Qed.

(** *** The paths of a tree *)

Lemma distinct_NoDup (l : list str) : distinct l = true -> NoDup l.
Proof.
  induction l as [|x l IH]; intros H; constructor;
    cbn [distinct] in H; apply andb_prop in H as [Hx H]; auto.
  intros Hin. apply negb_true_iff in Hx.
  assert (E : existsb (str_eqb x) l = true).
  { apply existsb_exists. exists x. split; [exact Hin|apply str_eqb_refl]. }
  congruence.
Qed.

Lemma name_ok_parts (name : str) :
  name_ok name = true -> name <> [] /\ slash_free name = true.
Proof.
  unfold name_ok. intros H. apply andb_prop in H as [H1 H2].
  split; [|exact H2]. intros ->. discriminate.
Qed.

Lemma dirpart_join (top name : str) :
  name_ok name = true ->
  dirpart (join top name) = dirpart top ++ name ++ [sep].
Proof.
  intros H. apply name_ok_parts in H as [Hne Hs].
  rewrite (@join_dirpart top name Hs). unfold dirpart at 1.
  destruct (dirpart top ++ name) as [|c l] eqn:E.
  { apply app_eq_nil in E as [_ E]. contradiction. }
  rewrite <- E. destruct (endswith (dirpart top ++ name) [sep]) eqn:Ee.
  - exfalso. apply endswith_spec in Ee as (stem & Ee).
    destruct (exists_last Hne) as (n' & d & ->).
    rewrite app_assoc in Ee. apply app_inj_tail in Ee as [_ ->].
    apply slash_free_app in Hs as [_ Hs].
    change (slash_free ([] ++ [sep]) = true) in Hs.
    now rewrite slash_free_last in Hs.
  - now rewrite <- app_assoc.
Qed.

Lemma tree_ok_dirnames (n : nat) :
  forall d, dir_size d <= n -> tree_ok d = true -> dirnames_ok d = true.
Proof.
  induction n as [|n IH]; intros [subdirs filenames] Hn Hok.
  - simpl in Hn. lia.
  - cbn [tree_ok] in Hok. apply andb_prop in Hok as [_ Hok].
    cbn [dirnames_ok]. rewrite forallb_forall in *. intros e He.
    specialize (Hok e He). apply andb_prop in Hok as [Hname Hsub].
    apply name_ok_parts in Hname as [_ ->]. cbn [andb].
    apply IH; [|exact Hsub]. cbn [dir_size] in Hn.
    pose proof (dir_size_in e subdirs He). lia.
Qed.

Lemma tree_ok_sub (subdirs : list (str * dir)) (filenames : list str)
    (e : str * dir) :
  tree_ok (Dir subdirs filenames) = true -> List.In e subdirs ->
  name_ok (fst e) = true /\ tree_ok (snd e) = true.
Proof.
  cbn [tree_ok]. intros H He. apply andb_prop in H as [_ H].
  rewrite forallb_forall in H. now apply andb_prop, H.
Qed.

(** The directories below a subdirectory have the path of the
    subdirectory and a separator before their own. *)
Lemma walk_below (top name : str) (sub : dir) :
  name_ok name = true -> tree_ok sub = true ->
  forall entry, List.In entry (walk (join top name) sub) ->
                exists y, dirpart (fst (fst entry))
                          = dirpart top ++ name ++ sep :: y.
Proof.
  intros Hname Hsub entry He.
  destruct (@walk_dirpart (dir_size sub) sub (join top name) (le_n _)
              (@tree_ok_dirnames (dir_size sub) sub (le_n _) Hsub) entry He) as (y & E).
  exists y. rewrite E, (@dirpart_join top name Hname).
  now rewrite <- !app_assoc.
Qed.

Lemma below_differ (D n1 y1 n2 y2 : str) :
  slash_free n1 = true -> slash_free n2 = true ->
  D ++ n1 ++ sep :: y1 = D ++ n2 ++ sep :: y2 -> n1 = n2.
Proof.
  intros H1 H2 E. apply app_inv_head in E.
  assert (Hs : N.eqb sep sep = true) by apply N.eqb_refl.
  now destruct (TagFacts.first_split (N.eqb sep) _ _ _ _ _ _ H1 Hs H2 Hs E).
Qed.

(** The directories of a walk have paths that differ from one another,
    also up to a separator at the end. *)
Lemma walk_keys_nodup (n : nat) :
  forall d top,
    dir_size d <= n -> tree_ok d = true ->
    NoDup (map (fun e => dirpart (fst (fst e))) (walk top d)).
Proof.
  induction n as [|n IH]; intros [subdirs filenames] top Hn Hok.
  - simpl in Hn. lia.
  - cbn [walk map fst]. constructor.
    + (* the top is none of the directories below it *)
      intros Hin. apply in_map_iff in Hin as (entry & E & Hin).
      apply in_flat_map in Hin as (e & He & Hin).
      destruct (@tree_ok_sub _ _ e Hok He) as [Hname Hsub].
      destruct (@walk_below top _ _ Hname Hsub entry Hin) as (y & Ey).
      rewrite Ey in E. rewrite <- (app_nil_r (dirpart top)) in E at 2.
      apply app_inv_head in E. apply name_ok_parts in Hname as [Hne _].
      destruct (fst e); [contradiction|discriminate].
    + (* the subdirectories one after the other *)
      assert (Hsubs : forall e, List.In e subdirs ->
                 name_ok (fst e) = true /\ tree_ok (snd e) = true
                 /\ dir_size (snd e) <= n).
      { intros e He. destruct (@tree_ok_sub _ _ e Hok He) as [H1 H2].
        repeat split; auto. cbn [dir_size] in Hn.
        pose proof (dir_size_in e subdirs He). lia. }
      assert (Hnames : NoDup (map fst subdirs)).
      { cbn [tree_ok] in Hok. apply andb_prop in Hok as [Hok _].
        apply andb_prop in Hok as [_ Hok]. now apply distinct_NoDup. }
      clear Hok Hn. induction subdirs as [|e subdirs IHs]; [constructor|].
      cbn [flat_map]. rewrite map_app. cbn [map] in Hnames.
      apply NoDup_cons_iff in Hnames as [Hfresh Hnames].
      destruct (Hsubs e (or_introl eq_refl)) as (Hname & Hsub & Hsize).
      apply NoDup_app.
      * now apply IH.
      * apply IHs; [|exact Hnames]. intros e' He'. apply Hsubs. now right.
      * intros k Hk Hk'.
        apply in_map_iff in Hk as (entry & <- & Hin).
        apply in_map_iff in Hk' as (entry' & E & Hin').
        apply in_flat_map in Hin' as (e' & He' & Hin').
        destruct (Hsubs e' (or_intror He')) as (Hname' & Hsub' & _).
        destruct (@walk_below top _ _ Hname Hsub entry Hin) as (y & Ey).
        destruct (@walk_below top _ _ Hname' Hsub' entry' Hin') as (y' & Ey').
        rewrite Ey, Ey' in E. apply below_differ in E.
        -- apply Hfresh. rewrite <- E. now apply in_map.
        -- now apply name_ok_parts in Hname'.
        -- now apply name_ok_parts in Hname.
Qed.

(** The files of a directory of the walk are named well and differ in
    name. *)
Lemma walk_files_ok (n : nat) :
  forall d top,
    dir_size d <= n -> tree_ok d = true ->
    forall entry, List.In entry (walk top d) ->
                  NoDup (snd entry) /\ forallb slash_free (snd entry) = true.
Proof.
  induction n as [|n IH]; intros [subdirs filenames] top Hn Hok entry He.
  - simpl in Hn. lia.
  - cbn [walk] in He. destruct He as [<-|He].
    + cbn [snd tree_ok] in *. apply andb_prop in Hok as [Hok _].
      apply andb_prop in Hok as [Hok _]. apply andb_prop in Hok as [Hn1 Hn2].
      split; [now apply distinct_NoDup|].
      rewrite forallb_forall in *. intros f Hf.
      now apply name_ok_parts, Hn1.
    + apply in_flat_map in He as (e & Hin & He).
      destruct (@tree_ok_sub _ _ e Hok Hin) as [_ Hsub].
      apply (IH (snd e) (join top (fst e))); auto.
      cbn [dir_size] in Hn. pose proof (dir_size_in e subdirs Hin). lia.
Qed.

Lemma join_names_nodup (d : str) (fs : list str) :
  NoDup fs -> forallb slash_free fs = true ->
  NoDup (map (join d) (filter (fun f => endswith f (text ".html")) fs)).
Proof.
  induction 1 as [|f fs Hf _ IH]; intros Hs; [constructor|].
  cbn [forallb] in Hs. apply andb_prop in Hs as [Hsf Hs].
  cbn [filter]. destruct (endswith f (text ".html")); [|now apply IH].
  cbn [map]. constructor; [|now apply IH].
  intros Hin. apply in_map_iff in Hin as (f' & E & Hf').
  apply filter_In in Hf' as [Hf' _].
  rewrite forallb_forall in Hs.
  apply join_inj in E as [_ ->]; auto.
Qed.

Lemma candidates_nodup (root_dir : str) (tree : dir) :
  tree_ok tree = true -> NoDup (candidates root_dir tree).
Proof.
  intros Hok. unfold candidates.
  pose proof (@walk_keys_nodup (dir_size tree) tree root_dir (le_n _) Hok) as Hk.
  pose proof (@walk_files_ok (dir_size tree) tree root_dir (le_n _) Hok) as Hf.
  revert Hk Hf. generalize (walk root_dir tree) as entries.
  induction entries as [|[[d dn] fs] entries IH]; intros Hk Hf; [constructor|].
  cbn [map fst] in Hk. apply NoDup_cons_iff in Hk as [Hfresh Hk].
  cbn [flat_map]. destruct (Hf (d, dn, fs) (or_introl eq_refl)) as [Hnd Hs].
  cbn [snd] in Hnd, Hs.
  assert (IH' : NoDup (flat_map
            (fun entry : str * list str * list str =>
               let '(dirpath, _, filenames) := entry in
               if contains (text "node_modules") dirpath then []
               else map (join dirpath)
                        (filter (fun f => endswith f (text ".html")) filenames))
            entries)).
  { apply IH; [exact Hk|]. intros e He. apply Hf. now right. }
  destruct (contains (text "node_modules") d); [exact IH'|].
  apply NoDup_app; [now apply join_names_nodup|exact IH'|].
  intros p Hp Hp'.
  apply in_map_iff in Hp as (f & <- & Hin). apply filter_In in Hin as [Hin _].
  apply in_flat_map in Hp' as ([[d' dn'] fs'] & He' & Hp').
  destruct (contains (text "node_modules") d'); [destruct Hp'|].
  apply in_map_iff in Hp' as (f' & E & Hin'). apply filter_In in Hin' as [Hin' _].
  destruct (Hf (d', dn', fs') (or_intror He')) as [_ Hs'].
  cbn [snd] in Hs'. rewrite forallb_forall in Hs, Hs'.
  apply join_inj in E as [E _]; auto.
  apply Hfresh. rewrite <- E.
  change (dirpart d') with ((fun e : str * list str * list str =>
                               dirpart (fst (fst e))) (d', dn', fs')).
  now apply in_map.
Qed.

End RunMore.

(** ** The properties of the rewriter *)

Import Spec SreFacts PatternFacts SubFacts TagFacts IdemFacts.

(** *** The substitution *)

(** C1.  The substitution reads the text from the left.  Wherever it keeps
    an occurrence of the tag pattern it writes group 1, group 2, the text
    [webp] and group 4 for it, so that only the extension letters change,
    and it goes on behind that occurrence; it copies every character at
    which the pattern does not occur.  Every match that does not overlap
    an earlier one is rewritten in this way, not only the first. *)
Theorem rewrite_every_match (s : str) : Rewrites s (rewrite s).
Proof. apply (@rewrites_rewrite_bounded (length s) s (le_n _)). Qed.

(** Attribute preservation, on the sample of the specification. *)
Example rewrite_keeps_attributes :
  rewrite (html "<img class=`hero` src='pic.jpg' alt=`x`>")
  = html "<img class=`hero` src='pic.webp' alt=`x`>".
Proof. vm_compute. reflexivity. Qed.

(** Two tags in one text are both rewritten in one pass. *)
Example rewrite_two_tags :
  rewrite (html "<p><img src=`a.jpg`></p><p><img src=`b.PNG`></p>")
  = html "<p><img src=`a.webp`></p><p><img src=`b.webp`></p>".
Proof. vm_compute. reflexivity. Qed.

(** C2, as stated, fails: a tag with two values the pattern can match is
    rewritten once by each of two applications, the later value first. *)
Lemma rewrite_twice_differs :
  rewrite (rewrite (html "<img src=`a.jpg` data-src=`b.png`>"))
  <> rewrite (html "<img src=`a.jpg` data-src=`b.png`>").
Proof. vm_compute. discriminate. Qed.

(** C2, amended.  On a text the substitution reads in one way only, where
    the occurrences of the pattern that meet a rewritten tag are that tag
    alone, a second application changes nothing: after the first, the
    pattern occurs nowhere in the text. *)
Theorem rewrite_idempotent (s : str) :
  Unambiguous s -> rewrite (rewrite s) = rewrite s.
Proof.
  intros H. apply rewrite_fixed. apply (@unambiguous_rewrite _ H).
Qed.

Lemma rewrite_idempotent_witness :
  Unambiguous (html "<p><img src=`a.jpg`> <img src='b.PNG' ></p>")
  /\ rewrite (rewrite (html "<p><img src=`a.jpg`> <img src='b.PNG' ></p>"))
     = rewrite (html "<p><img src=`a.jpg`> <img src='b.PNG' ></p>").
Proof.
  assert (H : Unambiguous (html "<p><img src=`a.jpg`> <img src='b.PNG' ></p>")).
  { do 3 (apply unambiguous_skip; [vm_compute; reflexivity|]).
    apply (@unambiguous_simple (text "<img") (text " ") [] (text "src=")
             (text "a") (text "jpg") [] (html " <img src='b.PNG' ></p>")
             dq dq);
      try solve [vm_compute; reflexivity | discriminate].
    apply unambiguous_skip; [vm_compute; reflexivity|].
    apply (@unambiguous_simple (text "<img") (text " ") [] (text "src=")
             (text "b") (text "PNG") (text " ") (text "</p>") 39%N 39%N);
      try solve [vm_compute; reflexivity | discriminate].
    do 4 (apply unambiguous_skip; [vm_compute; reflexivity|]).
    constructor. }
  split; [exact H|]. apply (rewrite_idempotent H).
Defined.

(** C4.  A text in which the tag pattern occurs nowhere, whatever it says
    about [.png] or [.jpg] files in other elements, is left as it is,
    character by character. *)
Theorem rewrite_only_img_tags (s : str) :
  (forall a b, s = a ++ b -> ~ Occurs b) -> rewrite s = s.
Proof. apply rewrite_fixed. Qed.

Lemma rewrite_only_img_tags_witness :
  (forall a b, html "<link rel=`icon` href=`favicon.png`>" = a ++ b -> ~ Occurs b)
  /\ rewrite (html "<link rel=`icon` href=`favicon.png`>")
     = html "<link rel=`icon` href=`favicon.png`>".
Proof.
  assert (H : forall a b,
             html "<link rel=`icon` href=`favicon.png`>" = a ++ b -> ~ Occurs b).
  { apply no_occurrence_check. vm_compute. reflexivity. }
  split; [exact H|]. apply (rewrite_only_img_tags H).
Defined.

(** In particular a text in which no [img] tag starts is left as it is,
    whatever its other elements refer to. *)
Corollary rewrite_without_img (s : str) :
  mentions_img s = false -> rewrite s = s.
Proof.
  intros H. apply rewrite_fixed. intros a b E Ho.
  assert (Hb : opens_img b = true).
  { destruct Ho as (g1 & g2 & g3 & g4 & r & ((img & ws & attrs & src & q & ->
                      & Himg & Hws0 & Hws & _) & _) & ->).
    unfold opens_img. pose proof Himg as Himg'. caseless_inv Himg'.
    destruct ws as [|sp ws]; [contradiction|].
    cbn [app firstn nth_error]. rewrite Himg. simpl in Hws.
    now apply andb_prop in Hws as [-> _]. }
  unfold mentions_img in H.
  assert (Hex : existsb opens_img (tails s) = true).
  { apply existsb_exists. exists b. split; [|exact Hb].
    now apply tails_suffix with a. }
  congruence.
Qed.

(** C7.  The tag name, the attribute name and the extension match in any
    mix of upper and lower case; the rewritten tag keeps the tag name and
    the attribute name as they were written and has the lower-case [webp]
    for the extension. *)
Theorem rewrite_ignores_case (img src ext path : str) (q1 q2 : char) :
  ascii_caseless (text "<img") img = true ->
  ascii_caseless (text "src=") src = true ->
  ascii_caseless (text "jpg") ext || ascii_caseless (text "png") ext = true ->
  path <> [] -> none is_quote path = true ->
  is_quote q1 = true -> is_quote q2 = true ->
  rewrite (img ++ text " " ++ src ++ q1 :: path ++ text "." ++ ext
             ++ q2 :: text ">")
  = img ++ text " " ++ src ++ q1 :: path ++ text ".webp" ++ q2 :: text ">".
Proof.
  intros Himg Hsrc Hext Hpath0 Hpath Hq1 Hq2.
  apply ascii_caseless_caseless in Himg; [|reflexivity].
  apply ascii_caseless_caseless in Hsrc; [|reflexivity].
  assert (Hext' : tag_ext ext).
  { apply orb_prop in Hext as [H|H]; [left|right];
      (apply ascii_caseless_caseless; [reflexivity|exact H]). }
  apply (@rewrite_tag_flat img (text " ") [] src path ext [] [] q1 q2);
    auto; discriminate.
Qed.

Lemma rewrite_ignores_case_witness :
  rewrite (html "<IMG SRC=`photo.PNG`>") = html "<IMG SRC=`photo.webp`>".
Proof.
  apply (@rewrite_ignores_case (text "<IMG") (text "SRC=") (text "PNG")
           (text "photo") dq dq);
    solve [vm_compute; reflexivity | discriminate].
Defined.

(** C8.  The value of the attribute is not looked at beyond its quotes
    and its extension: a value that starts with a scheme, as remote
    addresses do, has its extension rewritten like any other. *)
Theorem rewrite_remote_src (scheme rest ext : str) (q1 q2 : char) :
  none is_quote scheme = true -> none is_quote rest = true ->
  caseless (text "jpg") ext || caseless (text "png") ext = true ->
  is_quote q1 = true -> is_quote q2 = true ->
  rewrite (text "<img src=" ++ q1 :: (scheme ++ text "://" ++ rest)
             ++ text "." ++ ext ++ q2 :: text ">")
  = text "<img src=" ++ q1 :: (scheme ++ text "://" ++ rest)
      ++ text ".webp" ++ q2 :: text ">".
Proof.
  intros Hscheme Hrest Hext Hq1 Hq2.
  assert (Hext' : tag_ext ext) by (apply orb_prop in Hext; exact Hext).
  apply (@rewrite_tag_flat (text "<img") (text " ") [] (text "src=")
           (scheme ++ text "://" ++ rest) ext [] [] q1 q2); auto;
    try discriminate.
  - destruct scheme; discriminate.
  - rewrite !none_app, Hscheme, Hrest. reflexivity.
Qed.

Lemma rewrite_remote_src_witness :
  rewrite (html "<img src=`http://example.com/a.jpg`>")
  = html "<img src=`http://example.com/a.webp`>".
Proof.
  apply (@rewrite_remote_src (text "http") (text "example.com/a") (text "jpg")
           dq dq); vm_compute; reflexivity.
Defined.

(** C9.  What stands between the tag name and [src=] is any run of
    characters other than [>]: an attribute whose name only ends in [src],
    such as [data-src], is rewritten although the tag has no [src]
    attribute. *)
Theorem rewrite_src_suffix (name path : str) :
  none special name = true ->
  path <> [] -> none is_quote path = true ->
  rewrite (text "<img " ++ name ++ text "src=" ++ dq :: path ++ text ".jpg"
             ++ dq :: text ">")
  = text "<img " ++ name ++ text "src=" ++ dq :: path ++ text ".webp"
      ++ dq :: text ">".
Proof.
  intros Hname Hpath0 Hpath.
  apply (@rewrite_tag_flat (text "<img") (text " ") name (text "src=")
           path (text "jpg") [] [] dq dq); auto; try discriminate.
  now left.
Qed.

Lemma rewrite_src_suffix_witness :
  rewrite (html "<img data-src=`x.jpg`>") = html "<img data-src=`x.webp`>".
Proof.
  apply (@rewrite_src_suffix (text "data-") (text "x"));
    solve [vm_compute; reflexivity | discriminate].
Defined.

(** C10.  The two quotes of the value are matched one by one, each
    against both quote characters: a value opened with one and closed with
    the other is rewritten, and each quote stays as it was. *)
Theorem rewrite_mismatched_quotes (q1 q2 : char) (path : str) :
  is_quote q1 = true -> is_quote q2 = true ->
  path <> [] -> none is_quote path = true ->
  rewrite (text "<img src=" ++ q1 :: path ++ text ".jpg" ++ q2 :: text ">")
  = text "<img src=" ++ q1 :: path ++ text ".webp" ++ q2 :: text ">".
Proof.
  intros Hq1 Hq2 Hpath0 Hpath.
  apply (@rewrite_tag_flat (text "<img") (text " ") [] (text "src=")
           path (text "jpg") [] [] q1 q2); auto; try discriminate.
  now left.
Qed.

Lemma rewrite_mismatched_quotes_witness :
  rewrite (html "<img src=`pic.jpg'>") = html "<img src=`pic.webp'>".
Proof.
  apply (@rewrite_mismatched_quotes dq 39%N (text "pic"));
    solve [vm_compute; reflexivity | discriminate].
Defined.

(** *** The run *)

Import PathFacts RunFacts.

(** The run of the specification's scenario: the page with an image is
    opened, announced and written, the page without images is only
    opened, and neither the page with the suffix in capitals nor the pages
    of the package directory are opened. *)
Example run_sample :
  run_trace (text ".") Sample.site (Sample.files_of Sample.pages)
  = [ Read_file (text "./a.html");
      Print_line (text "Updating ./a.html");
      Write_file (text "./a.html") (html "<img src=`x.webp`>");
      Read_file (text "./sub/b.html") ].
Proof. vm_compute. reflexivity. Qed.

(** C3.  No event of a run opens, announces or writes a file of a
    directory whose path has a segment [node_modules], whatever the name
    and the contents of the file: the directory and all that lies below it
    are passed over. *)
Theorem node_modules_skipped (root_dir : str) (tree : dir)
    (fs : str -> option str) (dirpath filename : str) :
  filenames_ok (walk root_dir tree) = true ->
  has_segment (text "node_modules") dirpath = true ->
  slash_free filename = true ->
  Forall (fun e => ~ concerns e (join dirpath filename))
         (run_trace root_dir tree fs).
Proof.
  intros Hok Hseg Hname. apply Forall_forall. intros e He Hc.
  apply run_trace_from in He as ([[d dirnames] filenames] & Hentry & Hd & f & Hf & He).
  cbn [fst snd] in *.
  assert (Hfok : slash_free f = true).
  { unfold filenames_ok in Hok. rewrite forallb_forall in Hok.
    specialize (Hok _ Hentry). cbn [snd] in Hok.
    rewrite forallb_forall in Hok. now apply Hok. }
  pose proof (concerns_inj He Hc) as E.
  apply join_inj in E as [E _]; auto.
  apply has_segment_contains in Hseg.
  assert (Hnm : text "node_modules" <> []) by discriminate.
  assert (Hsep : ~ List.In sep (text "node_modules")).
  { intros H. repeat (destruct H as [H|H]; [discriminate|]). exact H. }
  rewrite <- (contains_dirpart d Hnm Hsep) in Hd.
  rewrite <- (contains_dirpart dirpath Hnm Hsep) in Hseg.
  congruence.
Qed.

Lemma node_modules_skipped_witness :
  Forall (fun e => ~ concerns e (text "./node_modules/pkg/index.html"))
         (run_trace (text ".") Sample.site (Sample.files_of Sample.pages)).
Proof.
  apply (@node_modules_skipped (text ".") Sample.site
           (Sample.files_of Sample.pages)
           (text "./node_modules/pkg") (text "index.html"));
    vm_compute; reflexivity.
Defined.



(** C6.  A file is taken up when its name ends with the lower-case
    [.html]; a name that does not end so, as one that ends with [.HTML] or
    [.Html], is passed over without any effect. *)
Theorem visit_file_lowercase_html (dirpath filename : str) (w : world) :
  ((exists stem, filename = stem ++ text ".html") ->
   visit_file dirpath filename w = update_file (join dirpath filename) w)
  /\ ((forall stem, filename <> stem ++ text ".html") ->
      visit_file dirpath filename w = (Some tt, w))
  /\ (forall stem, visit_file dirpath (stem ++ text ".HTML") w = (Some tt, w))
  /\ (forall stem, visit_file dirpath (stem ++ text ".Html") w = (Some tt, w)).
Proof.
  assert (Hno : forall name,
             (forall stem, name <> stem ++ text ".html") ->
             visit_file dirpath name w = (Some tt, w)).
  { intros name H. unfold visit_file.
    destruct (endswith name (text ".html")) eqn:E; [|reflexivity].
    apply endswith_spec in E as (stem & ->). now destruct (H stem). }
  repeat split.
  - intros H. apply endswith_spec in H. unfold visit_file. now rewrite H.
  - apply Hno.
  - intros stem. apply Hno. intros stem' E.
    apply app_eq_len_r in E as [_ E]; [discriminate|reflexivity].
  - intros stem. apply Hno. intros stem' E.
    apply app_eq_len_r in E as [_ E]; [discriminate|reflexivity].
Qed.

(** ** Further properties *)

Import MoreFacts RunMore.

(** *** Runs *)







(** X4.  The test on the directory is a test for the text [node_modules]
    anywhere in its path: a directory whose name only holds that text,
    such as a copy kept under another name, is passed over with all its
    files like a package directory. *)
Theorem node_modules_substring_skipped (root_dir : str) (tree : dir)
    (fs : str -> option str) (dirpath filename : str) :
  filenames_ok (walk root_dir tree) = true ->
  contains (text "node_modules") dirpath = true ->
  slash_free filename = true ->
  Forall (fun e => ~ concerns e (join dirpath filename))
         (run_trace root_dir tree fs).
Proof.
  intros Hok Hsub Hname. apply Forall_forall. intros e He Hc.
  apply run_trace_from in He as ([[d dirnames] filenames] & Hentry & Hd & f & Hf & He).
  cbn [fst snd] in *.
  assert (Hfok : slash_free f = true).
  { unfold filenames_ok in Hok. rewrite forallb_forall in Hok.
    specialize (Hok _ Hentry). cbn [snd] in Hok.
    rewrite forallb_forall in Hok. now apply Hok. }
  pose proof (concerns_inj He Hc) as E.
  apply join_inj in E as [E _]; auto.
  assert (Hnm : text "node_modules" <> []) by discriminate.
  assert (Hsep : ~ List.In sep (text "node_modules")).
  { intros H. repeat (destruct H as [H|H]; [discriminate|]). exact H. }
  rewrite <- (contains_dirpart d Hnm Hsep) in Hd.
  rewrite <- (contains_dirpart dirpath Hnm Hsep) in Hsub.
  congruence.
Qed.

Lemma node_modules_substring_skipped_witness :
  Forall (fun e => ~ concerns e (text "./old_node_modules_copy/x.html"))
         (run_trace (text ".") Sample.site_with_copy
            (Sample.files_of Sample.pages_with_copy)).
Proof.
  apply (@node_modules_substring_skipped (text ".") Sample.site_with_copy
           (Sample.files_of Sample.pages_with_copy)
           (text "./old_node_modules_copy") (text "x.html"));
    vm_compute; reflexivity.
Defined.

(** X5.  Called on a root whose own path holds the text [node_modules],
    the script does nothing at all: every directory of the walk is passed
    over, no file is opened and the run ends without an exception. *)
Theorem run_under_node_modules (root_dir : str) (tree : dir) (w : world) :
  contains (text "node_modules") root_dir = true ->
  dirnames_ok tree = true ->
  update_html_files root_dir tree w = (Some tt, w).
Proof.
  intros Hroot Hok. unfold update_html_files. apply for_idle.
  intros [[d dirnames] filenames] He w'. unfold visit_dir.
  assert (Hd : contains (text "node_modules") d = true).
  { apply (@walk_contains tree root_dir (text "node_modules")) with
      (entry := (d, dirnames, filenames)); auto; try discriminate.
    intros H. repeat (destruct H as [H|H]; [discriminate|]). exact H. }
  now rewrite Hd.
Qed.

Lemma run_under_node_modules_witness :
  update_html_files (text "/srv/node_modules/site") Sample.site
    (start (Sample.files_of Sample.pages))
  = (Some tt, start (Sample.files_of Sample.pages)).
Proof.
  apply (@run_under_node_modules (text "/srv/node_modules/site") Sample.site);
    vm_compute; reflexivity.
Defined.

(** X6.  Run as a program the script walks the current directory: every
    file it opens, announces or writes has a path that starts with [./]. *)
Theorem main_stays_below (tree : dir) (fs : str -> option str) :
  dirnames_ok tree = true ->
  filenames_ok (walk (text ".") tree) = true ->
  Forall (fun e => exists rel, concerns e (text "./" ++ rel))
         (trace (snd (main tree (start fs)))).
Proof.
  intros Hd Hok. apply Forall_forall. intros e He.
  apply (@run_trace_from (text ".") tree fs) in He
    as ([[d dirnames] filenames] & Hentry & _ & f & Hf & He).
  cbn [fst snd] in *.
  assert (Hfok : slash_free f = true).
  { unfold filenames_ok in Hok. rewrite forallb_forall in Hok.
    specialize (Hok _ Hentry). cbn [snd] in Hok.
    rewrite forallb_forall in Hok. now apply Hok. }
  destruct (@walk_dirpart (dir_size tree) tree (text ".") (le_n _) Hd _ Hentry)
    as (y & E).
  cbn [fst] in E. rewrite (@join_dirpart d f Hfok), E in He.
  exists (y ++ f). change (dirpart (text ".")) with (text "./") in He.
  now rewrite <- app_assoc in He.
Qed.

Lemma main_stays_below_witness :
  Forall (fun e => exists rel, concerns e (text "./" ++ rel))
         (trace (snd (main Sample.site (start (Sample.files_of Sample.pages))))).
Proof.
  apply (@main_stays_below Sample.site (Sample.files_of Sample.pages));
    vm_compute; reflexivity.
Defined.

(** *** The pattern and the substitution *)

(** X7.  The engine finds a match at the start of a text exactly when the
    tag pattern occurs there; the four groups of a match all took part,
    read as the pattern says, and together with the rest make up the
    text. *)
Theorem match_is_occurrence (s : str) :
  (match_ img_tag_pattern s <> None <-> Occurs s)
  /\ forall mo,
       match_ img_tag_pattern s = Some mo ->
       Tag (group mo 1) (group mo 2) (group mo 3) (group mo 4)
       /\ s = group mo 1 ++ group mo 2 ++ group mo 3 ++ group mo 4 ++ rest mo.
Proof.
  split.
  - rewrite <- matches_iff. unfold matches.
    destruct (match_ img_tag_pattern s); split; intros H;
      try reflexivity; try discriminate. now destruct H.
  - intros mo H.
    destruct (match_sound _ H) as (g1 & g2 & g3 & g4 & T & E & G).
    unfold group. rewrite G. cbn. auto.
Qed.

(** X8.  No match is empty or short: a match takes at least seventeen
    characters, so a text shorter than that, the empty text among them, is
    returned as it is. *)
Theorem match_never_short (s : str) :
  (forall mo, match_ img_tag_pattern s = Some mo ->
              length (rest mo) + 17 <= length s)
  /\ (length s < 17 -> rewrite s = s).
Proof.
  split.
  - intros mo H.
    destruct (match_sound _ H) as (g1 & g2 & g3 & g4 & T & E & _).
    apply tag_length in T.
    assert (L : length s = length (g1 ++ g2 ++ g3 ++ g4) + length (rest mo)).
    { rewrite <- length_app. f_equal. rewrite E at 1.
      now rewrite <- !app_assoc. }
    lia.
  - intros L. apply rewrite_fixed.
    intros a b -> (g1 & g2 & g3 & g4 & r & T & ->).
    apply tag_length in T. rewrite !length_app in *. lia.
Qed.


(** X10.  The substitution never shortens a text, and a result of the
    same length is the text itself: every rewritten tag makes the text one
    character longer and takes one letter g away from it. *)
Theorem rewrite_length (s : str) :
  length s <= length (rewrite s)
  /\ (length (rewrite s) = length s -> rewrite s = s)
  /\ count_g (rewrite s) + length (rewrite s) = count_g s + length s.
Proof.
  split; [apply rewrites_length, rewrite_rewrites|]. split.
  - intros E. destruct (rewrites_cases (rewrite_rewrites s)) as [L|[H _]];
      [lia|exact H].
  - apply sim_balance, sim_rewrite.
Qed.

(** X11.  The substitution changes ASCII letters only: what is left of
    the text without its letters, the brackets, quotes, dots, slashes,
    digits and white space in their order, is the same before and
    after. *)
Theorem rewrite_keeps_skeleton (s : str) :
  skeleton (rewrite s) = skeleton s.
Proof. apply sim_skeleton, sim_rewrite. Qed.

(** X12.  Applying the substitution again and again comes to an end:
    after as many applications as the text has letters g, a further one
    changes nothing. *)
Theorem rewrite_settles (s : str) :
  rewrite (Nat.iter (count_g s) rewrite s) = Nat.iter (count_g s) rewrite s.
Proof. apply iter_reaches_fixed. apply le_n. Qed.

(** X13.  A tag whose value does not end with a dot and one of the two
    extensions behind at least one character is returned as it is: a value
    with another extension, such as [.jpeg] or [.gif], a value that is the
    extension alone, and a value without extension are not rewritten. *)
Theorem rewrite_other_values (v : str) (q1 q2 : char) :
  is_quote q1 = true -> is_quote q2 = true ->
  none is_quote v = true -> rewritable_value v = false ->
  rewrite (text "<img src=" ++ q1 :: v ++ q2 :: text ">")
  = text "<img src=" ++ q1 :: v ++ q2 :: text ">".
Proof.
  intros Hq1 Hq2 Hv Hr. apply rewrite_fixed. intros a b E.
  now apply (@plain_tag_no_occurrence v q1 q2 a b).
Qed.

Lemma rewrite_other_values_witness :
  rewrite (html "<img src=`photo.jpeg`>") = html "<img src=`photo.jpeg`>".
Proof.
  apply (@rewrite_other_values (text "photo.jpeg") dq dq);
    vm_compute; reflexivity.
Defined.

(** X14.  What stands before the first opening bracket is copied, and the
    substitution of what follows does not depend on it. *)
Theorem rewrite_prefix (a b : str) :
  none (N.eqb 60) a = true -> rewrite (a ++ b) = a ++ rewrite b.
Proof.
  induction a as [|c a IH]; intros H; [reflexivity|].
  simpl in H. apply andb_prop in H as [Hc H]. cbn [app].
  rewrite rewrite_no_occurrence.
  - now rewrite IH.
  - intros Ho. apply occurs_head in Ho. subst c. discriminate.
Qed.

Lemma rewrite_prefix_witness :
  rewrite (html "Logo: <img src=`l.png`>")
  = text "Logo: " ++ rewrite (html "<img src=`l.png`>").
Proof.
  apply (@rewrite_prefix (text "Logo: ") (html "<img src=`l.png`>")).
  vm_compute. reflexivity.
Defined.

(** *** The tree *)

(** X15.  On a tree as a file system holds it, where the names of a
    directory are not empty, hold no separator and differ from one
    another, no path is listed twice among the candidate files: every
    file is taken up under a path of its own, and once. *)
Theorem candidates_distinct (root_dir : str) (tree : dir) :
  tree_ok tree = true -> NoDup (candidates root_dir tree).
Proof. apply candidates_nodup. Qed.

Lemma candidates_distinct_witness :
  NoDup (candidates (text ".") Sample.site).
Proof.
  apply (@candidates_distinct (text ".") Sample.site).
  vm_compute. reflexivity.
Defined.

(** *** Tags with one pair of quotes *)

(** X16.  A tag whose only quotes are those of the value is rewritten
    whatever the case of its tag name, attribute name and extension, the
    white space behind the tag name (line breaks among it) and the
    unquoted text before [src=] and behind the value; the text that
    follows the tag is rewritten on its own. *)
Theorem rewrite_simple_tag (img ws pre src path ext post tail : str)
    (q1 q2 : char) :
  caseless (text "<img") img = true ->
  ws <> [] -> forallb unicode_isspace ws = true ->
  none special pre = true ->
  caseless (text "src=") src = true ->
  is_quote q1 = true ->
  path <> [] -> none is_quote path = true ->
  caseless (text "jpg") ext || caseless (text "png") ext = true ->
  is_quote q2 = true ->
  none special post = true ->
  rewrite (img ++ ws ++ pre ++ src ++ q1 :: path ++ text "." ++ ext
             ++ q2 :: post ++ text ">" ++ tail)
  = img ++ ws ++ pre ++ src ++ q1 :: path ++ text ".webp"
      ++ q2 :: post ++ text ">" ++ rewrite tail.
Proof.
  intros Himg Hws0 Hws Hpre Hsrc Hq1 Hpath0 Hpath Hext Hq2 Hpost.
  apply orb_prop in Hext.
  apply (@rewrite_tag_flat img ws pre src path ext post tail q1 q2); auto.
Qed.

Lemma rewrite_simple_tag_witness :
  rewrite (text "<IMG" ++ [10; 32; 32]%N
             ++ text "width=10 SRC='a/b.JPG' alt=x>"
             ++ html "<p><img src=`c.png`></p>")
  = text "<IMG" ++ [10; 32; 32]%N
      ++ text "width=10 SRC='a/b.webp' alt=x>"
      ++ html "<p><img src=`c.webp`></p>".
Proof.
  etransitivity.
  - apply (@rewrite_simple_tag (text "<IMG") [10; 32; 32]%N (text "width=10 ")
             (text "SRC=") (text "a/b") (text "JPG") (text " alt=x")
             (html "<p><img src=`c.png`></p>") 39%N 39%N);
      solve [vm_compute; reflexivity | discriminate].
  - vm_compute. reflexivity.
Defined.

(** X17.  Ignoring case on text goes beyond ASCII: the dotted capital I
    (U+0130) and the dotless i (U+0131) are read as the i of the tag name,
    and the long s (U+017F) as the s of the attribute name; a tag spelt
    with them is rewritten and keeps them. *)
Theorem rewrite_unicode_case (i s : char) (path : str) (q1 q2 : char) :
  existsb (N.eqb i) [105; 73; 0x130; 0x131]%N = true ->
  existsb (N.eqb s) [115; 83; 0x17F]%N = true ->
  path <> [] -> none is_quote path = true ->
  is_quote q1 = true -> is_quote q2 = true ->
  rewrite ([60; i; 109; 103; 32; s; 114; 99; 61]%N ++ q1 :: path
             ++ text ".jpg" ++ q2 :: text ">")
  = [60; i; 109; 103; 32; s; 114; 99; 61]%N ++ q1 :: path
      ++ text ".webp" ++ q2 :: text ">".
Proof.
  intros Hi Hs Hpath0 Hpath Hq1 Hq2.
  assert (Himg : caseless (text "<img") [60; i; 109; 103]%N = true).
  { cbn [existsb] in Hi.
    repeat (apply orb_prop in Hi as [Hi|Hi];
            [apply N.eqb_eq in Hi; subst i; reflexivity|]).
    discriminate. }
  assert (Hsrc : caseless (text "src=") [s; 114; 99; 61]%N = true).
  { cbn [existsb] in Hs.
    repeat (apply orb_prop in Hs as [Hs|Hs];
            [apply N.eqb_eq in Hs; subst s; reflexivity|]).
    discriminate. }
  apply (@rewrite_tag_flat [60; i; 109; 103]%N (text " ") [] [s; 114; 99; 61]%N
           path (text "jpg") [] [] q1 q2); auto; try discriminate.
  now left.
Qed.

Lemma rewrite_unicode_case_witness :
  rewrite ([60; 0x130; 109; 103; 32; 0x17F; 114; 99; 61]%N
             ++ dq :: text "a.jpg" ++ dq :: text ">")
  = [60; 0x130; 109; 103; 32; 0x17F; 114; 99; 61]%N
      ++ dq :: text "a.webp" ++ dq :: text ">".
Proof.
  apply (@rewrite_unicode_case 0x130%N 0x17F%N (text "a") dq dq);
    solve [vm_compute; reflexivity | discriminate].
Defined.
